(** * Manifest generator and manifest copier (curadoria scripts)

    A shallow embedding of the two pairs of scripts

    - [curadoria/generate-github-base.py]       (imperative copier)
    - [my/curadoria/generate-github-base.py]    ("functional" copier)
    - [curadoria/generate-stack.py]             (imperative generator)
    - [my/curadoria/generate-stack.py]          ("functional" generator)

    Parsed JSON values are an inductive type, paths follow [pathlib]'s pure
    paths (a POSIX and a Windows flavour), the filesystem of the copier is an
    abstract state with the three operations the copier calls, the two
    frontmatter regular expressions run on a small backtracking matcher with
    the semantics of Python's [re], and the scanned directories are a tree. *)

Set Warnings "-register-all -notation-for-abbreviation".
From Stdlib Require Import String Ascii List Bool Arith Lia QArith.
From Stdlib Require Import Sorting.Sorted Sorting.Permutation.
From Stdlib Require Import Structures.OrdersEx.
From Stdlib Require Import Floats.SpecFloat.
Import ListNotations.
Open Scope nat_scope.
Open Scope string_scope.
Open Scope list_scope.

(* ------------------------------------------------------------------ *)
(** ** Parsed JSON values *)

(** What [json.load] returns: [None], booleans, numbers (int and float; the
    extractors only ever test a number for truthiness, which is [<> 0]),
    strings, lists and dicts.  A dict is an association list of distinct
    keys, in insertion order. *)
Inductive json : Type :=
| JNull
| JBool (b : bool)
| JNum (q : Q)
| JStr (s : string)
| JArr (items : list json)
| JObj (kv : list (string * json)).

(** [d.get(k)]. *)
Fixpoint dict_get (k : string) (kv : list (string * json)) : option json :=
  match kv with
  | [] => None
  | (k', v) :: kv' => if String.eqb k' k then Some v else dict_get k kv'
  end.

(** [f(d[k]) if k in d else missing]: the branch on a key, written so that
    the recursion on the value bound to the key is structural. *)
Fixpoint dict_case {A : Type} (k : string) (found : json -> A) (missing : A)
    (kv : list (string * json)) : A :=
  match kv with
  | [] => missing
  | (k', v) :: kv' => if String.eqb k' k then found v else dict_case k found missing kv'
  end.

(** Python truthiness, used by the walrus test [if path := data.get("path")]. *)
Definition truthy (v : json) : bool :=
  match v with
  | JNull => false
  | JBool b => b
  | JNum q => negb (Qeq_bool q 0%Q)
  | JStr s => negb (String.eqb s EmptyString)
  | JArr l => negb (Nat.eqb (length l) 0)
  | JObj kv => negb (Nat.eqb (length kv) 0)
  end.

(** [curadoria/generate-github-base.py], [_extract_paths]. *)
Fixpoint _extract_paths (data : json) : list string :=
  match data with
  | JStr s => [s]
  | JObj kv =>
      dict_case "files" _extract_paths
        (match dict_get "path" kv with
         | Some (JStr path) => [path]
         | _ => []
         end) kv
  | JArr items =>
      fold_left (fun paths item => paths ++ _extract_paths item) items []
  | _ => []
  end.

(** [my/curadoria/generate-github-base.py], [extract_paths]. *)
Fixpoint extract_paths (data : json) : list string :=
  match data with
  | JStr s => [s]
  | JObj kv =>
      dict_case "files" extract_paths
        (match dict_get "path" kv with
         | Some path =>
             if truthy path
             then match path with JStr p => [p] | _ => [] end
             else []
         | None => []
         end) kv
  | JArr items =>
      fold_left (fun acc item => acc ++ extract_paths item) items []
  | _ => []
  end.

(** Python's recursion limit.  [budget] is the number of recursion units
    left below [sys.getrecursionlimit()] when the extractor is called; each
    unit is checked before it is taken, and a check that fails raises
    [RecursionError] ([None]).  On CPython 3.11 a call from Python code to a
    Python function takes one unit, and a call of a Python function from C
    code (the [lambda] that [functools.reduce] calls) takes two: one for
    the C-level recursion check, one for the frame.  [isinstance],
    [in], [get], [+] and [extend] are C code that calls no Python
    function. *)
Fixpoint extract_paths_rec (budget : nat) (data : json) : option (list string) :=
  match budget with
  | 0 => None
  | S b =>
      match data with
      | JStr s => Some [s]
      | JObj kv =>
          dict_case "files" (extract_paths_rec b)
            (Some (match dict_get "path" kv with
                   | Some path =>
                       if truthy path
                       then match path with JStr p => [p] | _ => [] end
                       else []
                   | None => []
                   end)) kv
      | JArr items =>
          fold_left
            (fun acc item =>
               match acc with
               | None => None
               | Some a =>
                   match b with
                   | 0 | 1 => None
                   | S (S b2) => option_map (fun l => a ++ l) (extract_paths_rec b2 item)
                   end
               end) items (Some [])
      | _ => Some []
      end
  end.

Fixpoint _extract_paths_rec (budget : nat) (data : json) : option (list string) :=
  match budget with
  | 0 => None
  | S b =>
      match data with
      | JStr s => Some [s]
      | JObj kv =>
          dict_case "files" (_extract_paths_rec b)
            (Some (match dict_get "path" kv with
                   | Some (JStr path) => [path]
                   | _ => []
                   end)) kv
      | JArr items =>
          fold_left
            (fun acc item =>
               match acc with
               | None => None
               | Some paths => option_map (fun l => paths ++ l) (_extract_paths_rec b item)
               end) items (Some [])
      | _ => Some []
      end
  end.

(** The recursion units a call needs: one for the call, plus, for a list,
    the most any element needs (three more per element for [extract_paths],
    one more for [_extract_paths]), and for a mapping with ["files"], what
    its value needs. *)
Fixpoint extract_paths_frames (data : json) : nat :=
  S (match data with
     | JObj kv => dict_case "files" extract_paths_frames 0 kv
     | JArr items => list_max (map (fun item => S (S (extract_paths_frames item))) items)
     | _ => 0
     end).

Fixpoint _extract_paths_frames (data : json) : nat :=
  S (match data with
     | JObj kv => dict_case "files" _extract_paths_frames 0 kv
     | JArr items => list_max (map _extract_paths_frames items)
     | _ => 0
     end).

(** The precedence of the path extractor as the specification words it
    (section 4.3): a relation between a JSON value and the extracted list. *)
Inductive extract_spec : json -> list string -> Prop :=
| spec_str s : extract_spec (JStr s) [s]
| spec_files kv v l :
    dict_get "files" kv = Some v -> extract_spec v l -> extract_spec (JObj kv) l
| spec_path kv p :
    dict_get "files" kv = None -> dict_get "path" kv = Some (JStr p) ->
    extract_spec (JObj kv) [p]
| spec_obj_other kv :
    dict_get "files" kv = None ->
    (forall p, dict_get "path" kv <> Some (JStr p)) ->
    extract_spec (JObj kv) []
| spec_seq items ls :
    Forall2 extract_spec items ls -> extract_spec (JArr items) (concat ls)
| spec_null : extract_spec JNull []
| spec_bool b : extract_spec (JBool b) []
| spec_num q : extract_spec (JNum q) [].

(** Every string leaf of a JSON value (dict values included, keys not). *)
Fixpoint json_strings (j : json) : list string :=
  match j with
  | JStr s => [s]
  | JArr items => flat_map json_strings items
  | JObj kv => flat_map (fun kv1 => json_strings (snd kv1)) kv
  | _ => []
  end.

(** Strict induction principle for [json], with the nested lists. *)
Section JsonInd.
Variable P : json -> Prop.
Hypothesis HNull : P JNull.
Hypothesis HBool : forall b, P (JBool b).
Hypothesis HNum : forall q, P (JNum q).
Hypothesis HStr : forall s, P (JStr s).
Hypothesis HArr : forall items, Forall P items -> P (JArr items).
Hypothesis HObj : forall kv, Forall (fun kv1 => P (snd kv1)) kv -> P (JObj kv).

Fixpoint json_ind' (j : json) : P j :=
  match j with
  | JNull => HNull
  | JBool b => HBool b
  | JNum q => HNum q
  | JStr s => HStr s
  | JArr items =>
      HArr items
        ((fix go (l : list json) : Forall P l :=
            match l with
            | [] => Forall_nil P
            | x :: l' => Forall_cons x (json_ind' x) (go l')
            end) items)
  | JObj kv =>
      HObj kv
        ((fix go (l : list (string * json)) : Forall (fun kv1 => P (snd kv1)) l :=
            match l with
            | [] => Forall_nil _
            | (k, v) :: l' => Forall_cons (k, v) (json_ind' v) (go l')
            end) kv)
  end.
End JsonInd.

(* ------------------------------------------------------------------ *)
(** ** Pure paths ([pathlib.PurePosixPath] / [pathlib.PureWindowsPath]) *)

(** The host's path flavour: the only difference the scripts observe is
    which characters separate components and which one [str] joins with.
    Windows drive letters and case folding of [relative_to] are not
    modelled: every path below is drive-less. *)
Inductive flavour := Posix | Windows.

(** A pure path: whether it starts at a root, and its components. *)
Record PurePath := mkPath { anchored : bool; parts : list string }.

Definition slash : ascii := "/"%char.
Definition backslash : ascii := "\"%char.
Definition nl : ascii := ascii_of_nat 10.

Definition is_sep (f : flavour) (c : ascii) : bool :=
  match f with
  | Posix => Ascii.eqb c slash
  | Windows => Ascii.eqb c backslash || Ascii.eqb c slash
  end.

Definition sep (f : flavour) : string :=
  match f with
  | Posix => String slash EmptyString
  | Windows => String backslash EmptyString
  end.

(** [s.split(sep)] on every separator character. *)
Fixpoint split_on (p : ascii -> bool) (s : string) : list string :=
  match s with
  | EmptyString => [EmptyString]
  | String c s' =>
      if p c then EmptyString :: split_on p s'
      else match split_on p s' with
           | [] => [String c EmptyString]
           | w :: ws => String c w :: ws
           end
  end.

(** [Path(s)]: a leading separator anchors the path; empty components and
    ["."] are dropped. *)
Definition parse (f : flavour) (s : string) : PurePath :=
  {| anchored := match s with String c _ => is_sep f c | EmptyString => false end;
     parts := filter (fun x => negb (String.eqb x EmptyString) && negb (String.eqb x "."))
                (split_on (is_sep f) s) |}.

(** [str(p)]. *)
Definition str_path (f : flavour) (p : PurePath) : string :=
  match parts p with
  | [] => if anchored p then sep f else "."
  | _ => String.append (if anchored p then sep f else EmptyString) (String.concat (sep f) (parts p))
  end.

(** [a / b]: an anchored right operand replaces the left one. *)
Definition join (a b : PurePath) : PurePath :=
  if anchored b then b else {| anchored := anchored a; parts := parts a ++ parts b |}.

(** [p.name] and [p.parent]. *)
Definition path_name (p : PurePath) : string := last (parts p) EmptyString.
Definition parent (p : PurePath) : PurePath :=
  {| anchored := anchored p; parts := removelast (parts p) |}.

Fixpoint strip_prefix (pre l : list string) : option (list string) :=
  match pre, l with
  | [], _ => Some l
  | x :: pre', y :: l' => if String.eqb x y then strip_prefix pre' l' else None
  | _ :: _, [] => None
  end.

(** [p.relative_to(root)]; [None] is the [ValueError].  The components
    are compared exactly, as [PurePosixPath] does; [PureWindowsPath]
    compares them case-insensitively. *)
Definition relative_to (p root : PurePath) : option PurePath :=
  if Bool.eqb (anchored p) (anchored root)
  then option_map (fun l => {| anchored := false; parts := l |}) (strip_prefix (parts root) (parts p))
  else None.

(** [s.replace(a, b)] for one-character [a] and [b]. *)
Fixpoint replace_char (a b : ascii) (s : string) : string :=
  match s with
  | EmptyString => EmptyString
  | String c s' => String (if Ascii.eqb c a then b else c) (replace_char a b s')
  end.

(* ------------------------------------------------------------------ *)
(** ** The copiers *)

(** [Status], [CopyResult] and [CopyStats] of the functional copier. *)
Inductive Status := COPIED | SKIPPED | FAILED.

Definition status_eqb (a b : Status) : bool :=
  match a, b with
  | COPIED, COPIED | SKIPPED, SKIPPED | FAILED, FAILED => true
  | _, _ => false
  end.

Record CopyResult := mkResult {
  source : PurePath;
  destination : option PurePath;
  status : Status;
  error : option string }.

(** The exceptions the imperative copier lets escape. *)
Inductive CopyError :=
| FileNotFoundError (src : PurePath)
| OSError (msg : string).

Section Copier.
(** The host flavour, used to turn each manifest string into a [Path]. *)
Variable host : flavour.
(** The filesystem, and the three operations the copiers call on it:
    [Path.exists], [Path.mkdir(parents=True, exist_ok=True)] and
    [shutil.copy2].  [Path.exists] answers a boolean or, on CPython up to
    3.12, re-raises the [OSError] of [stat] whose errno is not [ENOENT],
    [ENOTDIR], [EBADF] or [ELOOP] ([ENAMETOOLONG], [EACCES], ...): [inr]
    carries that exception.  [mkdir] and [copy2] return the new state and,
    when they raised an [OSError], its message. *)
Variable St : Type.
Variable path_exists : St -> PurePath -> bool + string.
Variable mkdir_parents : St -> PurePath -> St * option string.
Variable copy2 : St -> PurePath -> PurePath -> St * option string.

(** [resolve_destination]. *)
Definition resolve_destination (dest repo_root : PurePath) : PurePath :=
  if anchored dest then dest else join repo_root dest.

(** [copy_single_file]: the [try] block catches [FileNotFoundError],
    [IOError] and [PermissionError], i.e. every [OSError]; the call to
    [src.exists()] is outside it, and what it raises escapes ([inr]). *)
Definition copy_single_file (st : St) (src dest : PurePath) : St * (CopyResult + string) :=
  match path_exists st src with
  | inr e => (st, inr e)
  | inl false => (st, inl (mkResult src None SKIPPED (Some "File not found")))
  | inl true =>
      let '(st1, e1) := mkdir_parents st (parent dest) in
      match e1 with
      | Some e => (st1, inl (mkResult src None FAILED (Some e)))
      | None =>
          let '(st2, e2) := copy2 st1 src dest in
          match e2 with
          | Some e => (st2, inl (mkResult src None FAILED (Some e)))
          | None => (st2, inl (mkResult src (Some dest) COPIED None))
          end
      end
  end.

(** The list comprehension of [copy_files_batch], one path after the other;
    an exception of an item ends the comprehension, and the results so far
    are lost. *)
Fixpoint copy_batch_loop (st : St) (repo_root final_dest : PurePath) (paths : list string)
    : St * (list CopyResult + string) :=
  match paths with
  | [] => (st, inl [])
  | p :: ps =>
      let rel := parse host p in
      match copy_single_file st (join repo_root rel) (join final_dest rel) with
      | (st1, inr e) => (st1, inr e)
      | (st1, inl r) =>
          match copy_batch_loop st1 repo_root final_dest ps with
          | (st2, inl rs) => (st2, inl (r :: rs))
          | (st2, inr e) => (st2, inr e)
          end
      end
  end.

(** [copy_files_batch]. *)
Definition copy_files_batch (st : St) (repo_root dest_root : PurePath) (paths : list string)
    : St * (list CopyResult + string) :=
  copy_batch_loop st repo_root (resolve_destination dest_root repo_root) paths.

(** The [for] loop of [_copy_paths]: a missing source raises
    [FileNotFoundError]; an error of [exists], [mkdir] or [copy2]
    propagates.  On an exception the [copied] list is lost. *)
Fixpoint copy_paths_loop (st : St) (repo_root final_dest : PurePath) (paths : list string)
    : St * (list PurePath + CopyError) :=
  match paths with
  | [] => (st, inl [])
  | rel_path :: ps =>
      let rel := parse host rel_path in
      let src := join repo_root rel in
      match path_exists st src with
      | inr e => (st, inr (OSError e))
      | inl false => (st, inr (FileNotFoundError src))
      | inl true =>
          let dest := join final_dest rel in
          let '(st1, e1) := mkdir_parents st (parent dest) in
          match e1 with
          | Some e => (st1, inr (OSError e))
          | None =>
              let '(st2, e2) := copy2 st1 src dest in
              match e2 with
              | Some e => (st2, inr (OSError e))
              | None =>
                  let '(st3, r) := copy_paths_loop st2 repo_root final_dest ps in
                  (st3, match r with inl ds => inl (dest :: ds) | inr e => inr e end)
              end
          end
      end
  end.

(** [_copy_paths]. *)
Definition _copy_paths (st : St) (repo_root dest_root : PurePath) (paths : list string)
    : St * (list PurePath + CopyError) :=
  let final_dest := if anchored dest_root then dest_root else join repo_root dest_root in
  copy_paths_loop st repo_root final_dest paths.
End Copier.

Record CopyStats := mkStats { copied : list PurePath; skipped : nat }.

(** [CopyStats.total]. *)
Definition total (s : CopyStats) : nat := length (copied s) + skipped s.

(** Python's [float]: IEEE 754 binary64 ([prec = 53], [emax = 1024]),
    rounding to nearest, ties to even. *)
Definition float_of_nat (n : nat) : spec_float := binary_normalize 53 1024 (Z.of_nat n) 0 false.

(** [a / b] on two [int]s: CPython's true division returns the correctly
    rounded quotient, i.e. the exact integers [a * 2^0] and [b * 2^0]
    divided with one rounding; [0 / b] is [0.0].  Division by zero (a
    [ZeroDivisionError]) is never reached by the callers below, which test
    the divisor first. *)
Definition int_true_div (a b : nat) : spec_float :=
  match Z.of_nat a, Z.of_nat b with
  | Zpos ma, Zpos mb => SFdiv 53 1024 (S754_finite false ma 0) (S754_finite false mb 0)
  | Z0, Zpos _ => S754_zero false
  | _, _ => S754_nan
  end.

(** [x * n] for a [float] [x] and an [int] [n]: [n] is converted to a
    float, then one rounded product. *)
Definition float_mul_int (x : spec_float) (n : nat) : spec_float :=
  SFmul 53 1024 x (float_of_nat n).

(** [CopyStats.success_rate]: [len(copied) / total * 100], or [0.0]. *)
Definition success_rate (s : CopyStats) : spec_float :=
  if Nat.ltb 0 (total s)
  then float_mul_int (int_true_div (length (copied s)) (total s)) 100
  else S754_zero false.

(** [aggregate_results]; a [Path] is always truthy. *)
Definition aggregate_results (results : list CopyResult) : CopyStats :=
  {| copied := flat_map (fun r => if status_eqb (status r) COPIED
                                   then match destination r with Some d => [d] | None => [] end
                                   else []) results;
     skipped := length (filter (fun r => status_eqb (status r) SKIPPED || status_eqb (status r) FAILED)
                          results) |}.

(** A concrete filesystem for running the copiers: the list of existing
    files.  [exists] raises [ENAMETOOLONG] on a component longer than
    [NAME_MAX] (255 bytes, as on Linux); [mkdir] always succeeds; [copy2]
    raises [SameFileError] when source and destination are the same file
    (its first check), [FileNotFoundError] on a missing source, and
    otherwise adds the destination. *)
Fixpoint parts_eqb (a b : list string) : bool :=
  match a, b with
  | [], [] => true
  | x :: a', y :: b' => String.eqb x y && parts_eqb a' b'
  | _, _ => false
  end.

Definition path_eqb (a b : PurePath) : bool :=
  Bool.eqb (anchored a) (anchored b) && parts_eqb (parts a) (parts b).

Definition NAME_MAX : nat := 255.

Definition simple_exists (st : list PurePath) (p : PurePath) : bool + string :=
  if existsb (fun x => Nat.ltb NAME_MAX (String.length x)) (parts p)
  then inr "[Errno 36] File name too long"
  else inl (existsb (path_eqb p) st).
Definition simple_mkdir (st : list PurePath) (_ : PurePath) : list PurePath * option string := (st, None).
Definition simple_copy2 (st : list PurePath) (src dest : PurePath) : list PurePath * option string :=
  if path_eqb src dest then (st, Some "are the same file")
  else if existsb (path_eqb src) st then (dest :: st, None)
  else (st, Some "No such file or directory").

(* ------------------------------------------------------------------ *)
(** ** Python regular expressions, as far as the two frontmatter patterns go *)

(** Characters are code points below 256.  [\s] and [str.strip] use the same
    whitespace class ([Py_UNICODE_ISSPACE]). *)
Definition is_space (c : ascii) : bool :=
  let n := nat_of_ascii c in
  (((9 <=? n) && (n <=? 13)) || ((28 <=? n) && (n <=? 32)) || (n =? 133) || (n =? 160))%nat.

Definition dquote : ascii := ascii_of_nat 34.
Definition squote : ascii := ascii_of_nat 39.
Definition is_quote (c : ascii) : bool := Ascii.eqb c squote || Ascii.eqb c dquote.
Definition any_char (_ : ascii) : bool := true.
Definition not_nl (c : ascii) : bool := negb (Ascii.eqb c nl).

(** One item of a pattern without alternation; repetitions apply to one
    character class. *)
Inductive ritem :=
| RStart                     (* ^ without MULTILINE *)
| RBol                       (* ^ with MULTILINE *)
| REol                       (* $ with MULTILINE *)
| RLit (c : ascii)
| ROpt (p : ascii -> bool)   (* greedy ? *)
| RStar (p : ascii -> bool)  (* greedy * *)
| RLazy (p : ascii -> bool)  (* lazy *? *)
| GOpen                      (* ( of group 1 *)
| GClose.                    (* ) of group 1 *)

Fixpoint run_length (p : ascii -> bool) (s : list ascii) : nat :=
  match s with
  | [] => 0
  | c :: s' => if p c then S (run_length p s') else 0
  end.

(** Try the counts [n], [n-1], ..., [0] (greedy) ... *)
Fixpoint try_down {A : Type} (k : nat -> option A) (n : nat) : option A :=
  match k n with
  | Some a => Some a
  | None => match n with 0 => None | S n' => try_down k n' end
  end.

(** ... or [i], [i+1], ..., [i+fuel] (lazy). *)
Fixpoint try_up {A : Type} (k : nat -> option A) (i fuel : nat) : option A :=
  match k i with
  | Some a => Some a
  | None => match fuel with 0 => None | S fuel' => try_up k (S i) fuel' end
  end.

(** The character before the remaining input once [j] more are consumed. *)
Definition prev_after (prev : option ascii) (s : list ascii) (j : nat) : option ascii :=
  match j with 0 => prev | S j' => nth_error s j' end.

(** Backtracking matcher: the pattern, the character before the current
    position, the position, the remaining input and the group span so far.
    The first success in Python's order of alternatives is returned, with
    the span of group 1. *)
Fixpoint rmatch (r : list ritem) (prev : option ascii) (i : nat) (s : list ascii)
    (g : nat * nat) : option (nat * nat) :=
  match r with
  | [] => Some g
  | RStart :: r' => if Nat.eqb i 0 then rmatch r' prev i s g else None
  | RBol :: r' =>
      match prev with
      | None => rmatch r' prev i s g
      | Some c => if Ascii.eqb c nl then rmatch r' prev i s g else None
      end
  | REol :: r' =>
      match s with
      | [] => rmatch r' prev i s g
      | c :: _ => if Ascii.eqb c nl then rmatch r' prev i s g else None
      end
  | RLit c :: r' =>
      match s with
      | x :: s' => if Ascii.eqb x c then rmatch r' (Some x) (S i) s' g else None
      | [] => None
      end
  | ROpt p :: r' =>
      match s with
      | x :: s' =>
          if p x
          then match rmatch r' (Some x) (S i) s' g with
               | Some m => Some m
               | None => rmatch r' prev i s g
               end
          else rmatch r' prev i s g
      | [] => rmatch r' prev i s g
      end
  | RStar p :: r' =>
      try_down (fun j => rmatch r' (prev_after prev s j) (i + j) (skipn j s) g) (run_length p s)
  | RLazy p :: r' =>
      try_up (fun j => rmatch r' (prev_after prev s j) (i + j) (skipn j s) g) 0 (run_length p s)
  | GOpen :: r' => rmatch r' prev i s (i, snd g)
  | GClose :: r' => rmatch r' prev i s (fst g, i)
  end.

Definition chars (s : string) : list ascii := list_ascii_of_string s.

(** [pattern.match(s)]. *)
Definition re_match (r : list ritem) (s : string) : option (nat * nat) :=
  rmatch r None 0 (chars s) (0, 0).

(** [pattern.search(s)]: the first start position that matches. *)
Fixpoint search_from (r : list ritem) (prev : option ascii) (i : nat) (s : list ascii)
    : option (nat * nat) :=
  match rmatch r prev i s (0, 0) with
  | Some g => Some g
  | None => match s with [] => None | c :: s' => search_from r (Some c) (S i) s' end
  end.

Definition re_search (r : list ritem) (s : string) : option (nat * nat) :=
  search_from r None 0 (chars s).

(** [m.group(1)]. *)
Definition group (s : string) (g : nat * nat) : string :=
  substring (fst g) (snd g - fst g) s.

Definition lits (s : string) : list ritem := map RLit (chars s).

(** [_FRONTMATTER_RE = re.compile(r"^---\s*\n(.*?)\n---", re.DOTALL)]. *)
Definition _FRONTMATTER_RE : list ritem :=
  [RStart] ++ lits "---" ++ [RStar is_space; RLit nl; GOpen; RLazy any_char; GClose; RLit nl]
  ++ lits "---".

(** [_DESCRIPTION_RE = re.compile(r"^description:\s*['"]?(.*?)['"]?\s*$", re.MULTILINE)]. *)
Definition _DESCRIPTION_RE : list ritem :=
  [RBol] ++ lits "description:"
  ++ [RStar is_space; ROpt is_quote; GOpen; RLazy not_nl; GClose; ROpt is_quote;
      RStar is_space; REol].

Fixpoint lstrip (s : string) : string :=
  match s with
  | String c s' => if is_space c then lstrip s' else s
  | EmptyString => EmptyString
  end.

Definition rstrip (s : string) : string :=
  string_of_list_ascii (rev (list_ascii_of_string (lstrip (string_of_list_ascii
    (rev (list_ascii_of_string s)))))).

(** [str.strip()]. *)
Definition strip (s : string) : string := lstrip (rstrip s).

(** [curadoria/generate-stack.py], [extract_description]; the argument is
    the outcome of [read_text] ([None]: it raised [OSError]). *)
Definition extract_description_imp (content : option string) : string :=
  match content with
  | None => EmptyString
  | Some c =>
      match re_match _FRONTMATTER_RE c with
      | None => EmptyString
      | Some fm_match =>
          let frontmatter := group c fm_match in
          match re_search _DESCRIPTION_RE frontmatter with
          | None => EmptyString
          | Some desc_match => strip (group frontmatter desc_match)
          end
      end
  end.

(** [my/curadoria/generate-stack.py]: [extract_frontmatter],
    [extract_description_from_frontmatter] and [extract_description]. *)
Definition extract_frontmatter (content : string) : option string :=
  option_map (group content) (re_match _FRONTMATTER_RE content).

Definition extract_description_from_frontmatter (frontmatter : string) : string :=
  match re_search _DESCRIPTION_RE frontmatter with
  | Some m => strip (group frontmatter m)
  | None => EmptyString
  end.

Definition extract_description (content : option string) : string :=
  match content with
  | None | Some EmptyString => EmptyString
  | Some c =>
      match extract_frontmatter c with
      | None | Some EmptyString => EmptyString
      | Some frontmatter => extract_description_from_frontmatter frontmatter
      end
  end.

(** Text with lines joined by newlines. *)
Definition lines (ls : list string) : string := String.concat (String nl EmptyString) ls.

(* ------------------------------------------------------------------ *)
(** ** The scanned directory tree and the generators *)

(** A directory tree; a file's content is [None] when reading it raises
    [OSError]. *)
Inductive node :=
| FileN (content : option string)
| DirN (children : list (string * node)).

Fixpoint child_lookup (x : string) (ch : list (string * node)) : option node :=
  match ch with
  | [] => None
  | (nm, c) :: ch' => if String.eqb nm x then Some c else child_lookup x ch'
  end.

(** The node at a path, from the filesystem root. *)
Fixpoint lookup (n : node) (path : list string) : option node :=
  match path with
  | [] => Some n
  | x :: rest =>
      match n with
      | FileN _ => None
      | DirN ch => match child_lookup x ch with Some c => lookup c rest | None => None end
      end
  end.

Definition is_file (fs : node) (p : PurePath) : bool :=
  match lookup fs (parts p) with Some (FileN _) => true | _ => false end.

Definition is_dir (fs : node) (p : PurePath) : bool :=
  match lookup fs (parts p) with Some (DirN _) => true | _ => false end.

(** [p.read_text(encoding="utf-8", errors="replace")]; [None] is [OSError]
    (missing file, directory, unreadable file). *)
Definition read_file (fs : node) (p : PurePath) : option string :=
  match lookup fs (parts p) with Some (FileN c) => c | _ => None end.

(** Every entry strictly below a node (files and directories). *)
Fixpoint walk (pre : list string) (n : node) : list (list string) :=
  match n with
  | FileN _ => []
  | DirN ch =>
      (fix go (ch : list (string * node)) : list (list string) :=
         match ch with
         | [] => []
         | (nm, c) :: ch' => (pre ++ [nm]) :: walk (pre ++ [nm]) c ++ go ch'
         end) ch
  end.

(** [directory.rglob("*")] and [directory.iterdir()]. *)
Definition rglob (fs : node) (d : PurePath) : list PurePath :=
  match lookup fs (parts d) with
  | Some n => map (fun q => {| anchored := anchored d; parts := q |}) (walk (parts d) n)
  | None => []
  end.

Definition iterdir (fs : node) (d : PurePath) : list PurePath :=
  match lookup fs (parts d) with
  | Some (DirN ch) =>
      map (fun nc => {| anchored := anchored d; parts := parts d ++ [fst nc] |}) ch
  | _ => []
  end.

(** The order of [sorted] on paths: component lists compared
    lexicographically, each component by code points; Windows paths compare
    case-folded. *)
Fixpoint lex_compare (a b : list string) : comparison :=
  match a, b with
  | [], [] => Eq
  | [], _ :: _ => Lt
  | _ :: _, [] => Gt
  | x :: a', y :: b' =>
      match String.compare x y with
      | Eq => lex_compare a' b'
      | c => c
      end
  end.

Definition lower (c : ascii) : ascii :=
  let n := nat_of_ascii c in
  if (Nat.leb 65 n && Nat.leb n 90) || (Nat.leb 192 n && Nat.leb n 222 && negb (Nat.eqb n 215))
  then ascii_of_nat (n + 32) else c.

Definition sort_key (f : flavour) (p : PurePath) : list string :=
  match f with
  | Posix => parts p
  | Windows => map (fun x => string_of_list_ascii (map lower (list_ascii_of_string x))) (parts p)
  end.

Definition path_le (f : flavour) (a b : PurePath) : bool :=
  match lex_compare (sort_key f a) (sort_key f b) with Gt => false | _ => true end.

Fixpoint insert_path (f : flavour) (x : PurePath) (l : list PurePath) : list PurePath :=
  match l with
  | [] => [x]
  | y :: l' => if path_le f x y then x :: l else y :: insert_path f x l'
  end.

(** [sorted(...)]. *)
Fixpoint sort_paths (f : flavour) (l : list PurePath) : list PurePath :=
  match l with
  | [] => []
  | x :: l' => insert_path f x (sort_paths f l')
  end.

Fixpoint map_filter {A B : Type} (g : A -> option B) (l : list A) : list B :=
  match l with
  | [] => []
  | x :: l' => match g x with Some y => y :: map_filter g l' | None => map_filter g l' end
  end.

(** [FileEntry]. *)
Record FileEntry := mkEntry { type : string; path : string; description : string }.

(** [normalize_path]. *)
Definition normalize_path (f : flavour) (file_path repo_root : PurePath) : option string :=
  match relative_to file_path repo_root with
  | Some rel => Some (replace_char slash backslash (str_path f rel))
  | None => None
  end.

(** [create_file_entry]. *)
Definition create_file_entry (f : flavour) (fs : node) (file_path repo_root : PurePath)
    (dir_type : string) : option FileEntry :=
  match normalize_path f file_path repo_root with
  | None => None
  | Some normalized_path =>
      if String.eqb normalized_path EmptyString then None
      else Some {| type := dir_type;
                   path := normalized_path;
                   description := if is_dir fs file_path then EmptyString
                                  else extract_description (read_file fs file_path) |}
  end.

(** [scan_directory_files]. *)
Definition scan_directory_files (f : flavour) (fs : node) (directory : PurePath)
    (recursive : bool) : list PurePath :=
  if recursive then sort_paths f (filter (is_file fs) (rglob fs directory))
  else sort_paths f (filter (is_dir fs) (iterdir fs directory)).

(** [should_scan_recursively]. *)
Definition should_scan_recursively (dir_type : string) : bool :=
  negb (String.eqb dir_type "skills" || String.eqb dir_type "plugins").

(** [process_directory]. *)
Definition process_directory (f : flavour) (fs : node) (directory repo_root : PurePath)
    : string * list FileEntry :=
  let dir_type := path_name directory in
  let recursive := should_scan_recursively dir_type in
  let items := scan_directory_files f fs directory recursive in
  (dir_type, map_filter (fun item => create_file_entry f fs item repo_root dir_type) items).

(** [merge_file_lists]. *)
Definition merge_file_lists (scans : list (string * list FileEntry)) : list FileEntry :=
  fold_left (fun acc scan => acc ++ snd scan) scans [].

(** [FileEntry.to_dict] and [files_to_dict]; [json.dump] followed by
    [json.load] gives back this value. *)
Definition entry_to_json (e : FileEntry) : json :=
  JObj [("type", JStr (type e)); ("path", JStr (path e)); ("description", JStr (description e))].

Definition files_to_dict (files : list FileEntry) : json :=
  JObj [("files", JArr (map entry_to_json files))].

(** The scanning loop of [main]: missing directories are skipped, empty
    scans are dropped. *)
Fixpoint scan_dirs (f : flavour) (fs : node) (repo_root : PurePath) (stack_dirs : list string)
    : list (string * list FileEntry) :=
  match stack_dirs with
  | [] => []
  | dir_name :: ds =>
      let input_dir := join repo_root (parse f dir_name) in
      if negb (is_dir fs input_dir) then scan_dirs f fs repo_root ds
      else
        let '(dir_type, entries) := process_directory f fs input_dir repo_root in
        match entries with
        | [] => scan_dirs f fs repo_root ds
        | _ :: _ => (dir_type, entries) :: scan_dirs f fs repo_root ds
        end
  end.

(** [main] of [my/curadoria/generate-stack.py] up to the written JSON value;
    [None] is exit code 1. *)
Definition generate_stack (f : flavour) (fs : node) (repo_root : PurePath)
    (stack_dirs : list string) : option json :=
  if negb (is_dir fs repo_root) then None
  else
    match merge_file_lists (scan_dirs f fs repo_root stack_dirs) with
    | [] => None
    | all_files => Some (files_to_dict all_files)
    end.

(** [curadoria/generate-stack.py]: [STACK_DIRS] and [list_directory]. *)
Definition STACK_DIRS : list string := ["agents"; "instructions"; "prompts"].

Definition list_directory (f : flavour) (fs : node) (directory repo_root : PurePath)
    : list FileEntry :=
  let dir_type := path_name directory in
  map_filter
    (fun file_path =>
       match relative_to file_path repo_root with
       | Some rel =>
           Some {| type := dir_type;
                   path := replace_char slash backslash (str_path f rel);
                   description := extract_description_imp (read_file fs file_path) |}
       | None => None
       end)
    (filter (is_file fs) (sort_paths f (rglob fs directory))).

(** Which extractor inputs reach a mapping without ["files"] whose ["path"]
    is the empty string (the only place where the values of the two
    extractors differ). *)
Fixpoint empty_path_reached (j : json) : bool :=
  match j with
  | JObj kv =>
      dict_case "files" empty_path_reached
        (match dict_get "path" kv with Some (JStr EmptyString) => true | _ => false end) kv
  | JArr items => existsb empty_path_reached items
  | _ => false
  end.

(** A mapping without ["files"] whose ["path"] is the empty string. *)
Definition empty_path_obj : json := JObj [("path", JStr EmptyString)].

(** A result recorded as [COPIED], and the number of results of a status. *)
Definition is_copied (r : CopyResult) : bool := status_eqb (status r) COPIED.

Definition count_status (s : Status) (rs : list CopyResult) : nat :=
  length (filter (fun r => status_eqb (status r) s) rs).


(** A repository with one file [/repo/a.md]; the manifest lists a missing
    file first. *)
Definition repo : PurePath := mkPath true ["repo"].
Definition fs_one : list PurePath := [mkPath true ["repo"; "a.md"]].
Definition paths_missing_first : list string := ["missing.md"; "a.md"].

Definition out_dir : PurePath := mkPath false ["out"].

(** A manifest entry with a 256-byte name, one more than [NAME_MAX]. *)
Definition long_name : string := string_of_list_ascii (repeat "a"%char 256).

(** [n] nested one-element lists around [j]: [[[...[j]...]]]. *)
Fixpoint nest_list (n : nat) (j : json) : json :=
  match n with
  | 0 => j
  | S n' => JArr [nest_list n' j]
  end.

(** Induction on directory trees, through the lists of children. *)
Section NodeInd.
Variable P : node -> Prop.
Hypothesis HFile : forall c, P (FileN c).
Hypothesis HDir : forall ch, Forall (fun nc => P (snd nc)) ch -> P (DirN ch).

Fixpoint node_ind' (n : node) : P n :=
  match n with
  | FileN c => HFile c
  | DirN ch =>
      HDir ch
        ((fix go (l : list (string * node)) : Forall (fun nc => P (snd nc)) l :=
            match l with
            | [] => Forall_nil _
            | (k, c) :: l' => Forall_cons (k, c) (node_ind' c) (go l')
            end) ch)
  end.
End NodeInd.

(** Names a filesystem can hold: non-empty, not ["."], and free of the
    flavour's separators. *)
Fixpoint string_forallb (p : ascii -> bool) (s : string) : bool :=
  match s with
  | EmptyString => true
  | String c s' => p c && string_forallb p s'
  end.

Definition valid_name (f : flavour) (x : string) : bool :=
  negb (String.eqb x EmptyString) && negb (String.eqb x ".")
  && string_forallb (fun c => negb (is_sep f c)) x.

Fixpoint tree_names_ok (f : flavour) (n : node) : bool :=
  match n with
  | FileN _ => true
  | DirN ch =>
      (fix go (l : list (string * node)) : bool :=
         match l with
         | [] => true
         | (nm, c) :: l' => valid_name f nm && tree_names_ok f c && go l'
         end) ch
  end.

(** A markdown file whose frontmatter has [description: "hello"], in the
    category directory [/repo/agents]. *)
Definition md_hello : string :=
  lines ["---";
         String.append "description: "
           (String dquote (String.append "hello" (String dquote EmptyString)));
         "---"; "# Agent"; EmptyString].

Definition fs_agents : node :=
  DirN [("repo", DirN [("agents", DirN [("a.md", FileN (Some md_hello))])])].

Definition agents_a_md : string := String.append "agents" (String backslash "a.md").

Definition entry_a : FileEntry := mkEntry "agents" agents_a_md "hello".

(** A frontmatter whose [description:] key has an empty value, followed by
    another key line. *)
Definition fm_empty_description : string :=
  lines ["---"; "description:"; "name: x"; "---"; EmptyString].

(* ------------------------------------------------------------------ *)
(** ** The rest of the generators *)

(** [curadoria/generate-stack.py], the scanning loop of [main]: missing
    directories are skipped, empty listings are not added. *)
Fixpoint list_dirs (f : flavour) (fs : node) (repo_root : PurePath) (dirs : list string)
    : list FileEntry :=
  match dirs with
  | [] => []
  | dir_name :: ds =>
      let input_dir := join repo_root (parse f dir_name) in
      if negb (is_dir fs input_dir) then list_dirs f fs repo_root ds
      else
        match list_directory f fs input_dir repo_root with
        | [] => list_dirs f fs repo_root ds
        | files => files ++ list_dirs f fs repo_root ds
        end
  end.

(** [main] of [curadoria/generate-stack.py] up to the written JSON value
    [{"files": all_files}]; [None] is exit code 1. *)
Definition generate_stack_imp (f : flavour) (fs : node) (repo_root : PurePath) : option json :=
  if negb (is_dir fs repo_root) then None
  else
    match list_dirs f fs repo_root STACK_DIRS with
    | [] => None
    | all_files => Some (JObj [("files", JArr (map entry_to_json all_files))])
    end.

(** [ScanStats] and [calculate_stats]; a description counts when it is a
    non-empty (truthy) string, and [len(set(...))] counts distinct types. *)
Record ScanStats := mkScanStats {
  total_files : nat;
  directories_scanned : nat;
  files_with_descriptions : nat }.

Definition files_without_descriptions (s : ScanStats) : Z :=
  (Z.of_nat (total_files s) - Z.of_nat (files_with_descriptions s))%Z.

Definition description_rate (s : ScanStats) : spec_float :=
  if Nat.ltb 0 (total_files s)
  then float_mul_int (int_true_div (files_with_descriptions s) (total_files s)) 100
  else S754_zero false.

Definition calculate_stats (files : list FileEntry) : ScanStats :=
  let files_with_desc :=
    length (filter (fun e => negb (String.eqb (description e) EmptyString)) files) in
  let dir_types := length (nodup string_dec (map type files)) in
  {| total_files := length files;
     directories_scanned := dir_types;
     files_with_descriptions := files_with_desc |}.

(** The environment of [os.getenv]: the first binding of a name wins. *)
Fixpoint getenv (env : list (string * string)) (k : string) : option string :=
  match env with
  | [] => None
  | (k', v) :: env' => if String.eqb k' k then Some v else getenv env' k
  end.

(** [x if x else y] on an optional string argument: [None] and the empty
    string are falsy. *)
Definition truthy_str (o : option string) : option string :=
  match o with
  | Some s => if String.eqb s EmptyString then None else Some s
  | None => None
  end.

(** [s.split(",")]. *)
Definition split_commas (s : string) : list string := split_on (fun c => Ascii.eqb c ","%char) s.

(** The parsed command line of [my/curadoria/generate-stack.py]: [--dirs]
    ([nargs="*"]), [--output], [--repo-root], [--output-dir]. *)
Record StackArgs := mkStackArgs {
  args_dirs : option (list string);
  args_output : option string;
  args_repo_root : option string;
  args_output_dir : option string }.

Record StackConfig := mkStackConfig {
  cfg_repo_root : PurePath;
  cfg_stack_dirs : list string;
  cfg_output_file : string;
  cfg_output_dir : PurePath }.

(** The parsed command line of [my/curadoria/generate-github-base.py]:
    [--source], [--dest], [--repo-root], [--stack-dir]. *)
Record CopierArgs := mkCopierArgs {
  cargs_source : string;
  cargs_dest : option string;
  cargs_repo_root : option string;
  cargs_stack_dir : option string }.

Record CopierConfig := mkCopierConfig {
  ccfg_repo_root : PurePath;
  ccfg_stack_dir : PurePath;
  ccfg_dest_dir : PurePath;
  ccfg_source : string }.

(** The default of [STACK_DIRS] in [Config.from_args]. *)
Definition default_stack_dirs : string :=
  "agents,instructions,prompts,skills,plugins,hooks".

Section FromArgs.
(** The host flavour, the script's directory, and [Path.resolve()], which
    depends on the working directory and on symbolic links. *)
Variable f : flavour.
Variable script_dir : PurePath.
Variable resolve : PurePath -> PurePath.

(** [Config.from_args] of [my/curadoria/generate-stack.py]. *)
Definition stack_from_args (env : list (string * string)) (args : StackArgs) : StackConfig :=
  let repo_root :=
    match truthy_str (args_repo_root args) with
    | Some r => resolve (parse f r)
    | None => resolve (match getenv env "REPO_ROOT" with
                       | Some r => parse f r
                       | None => parent script_dir
                       end)
    end in
  let stack_dirs :=
    match args_dirs args with
    | Some (d :: ds) => d :: ds
    | _ => split_commas (match getenv env "STACK_DIRS" with
                         | Some s => s
                         | None => default_stack_dirs
                         end)
    end in
  let output_file :=
    match truthy_str (args_output args) with
    | Some o => o
    | None => match getenv env "STACK_OUTPUT" with Some o => o | None => "stack.json" end
    end in
  let output_dir :=
    match truthy_str (args_output_dir args) with
    | Some o => resolve (parse f o)
    | None => resolve (match getenv env "OUTPUT_DIR" with
                       | Some o => parse f o
                       | None => script_dir
                       end)
    end in
  {| cfg_repo_root := repo_root; cfg_stack_dirs := stack_dirs;
     cfg_output_file := output_file; cfg_output_dir := output_dir |}.

(** [Config.from_args] of [my/curadoria/generate-github-base.py]. *)
Definition copier_from_args (env : list (string * string)) (args : CopierArgs) : CopierConfig :=
  let repo_root :=
    match truthy_str (cargs_repo_root args) with
    | Some r => resolve (parse f r)
    | None => resolve (match getenv env "REPO_ROOT" with
                       | Some r => parse f r
                       | None => parent script_dir
                       end)
    end in
  let stack_dir :=
    match truthy_str (cargs_stack_dir args) with
    | Some s => resolve (parse f s)
    | None => resolve (match getenv env "STACK_DIR" with
                       | Some s => parse f s
                       | None => script_dir
                       end)
    end in
  let dest_default :=
    match getenv env "DEST_DIR" with
    | Some d => d
    | None => String.append "agents/" (cargs_source args)
    end in
  let dest_dir :=
    parse f (match truthy_str (cargs_dest args) with Some d => d | None => dest_default end) in
  {| ccfg_repo_root := repo_root; ccfg_stack_dir := stack_dir;
     ccfg_dest_dir := dest_dir; ccfg_source := cargs_source args |}.
End FromArgs.

(** How a run of a script ends: an exit code, or an exception that nothing
    catches. *)
Inductive Outcome := Exit (code : nat) | Uncaught (msg : string).

(** The exceptions of [load_stack_json]: [FileNotFoundError],
    [json.JSONDecodeError], or another one ([PermissionError],
    [UnicodeDecodeError], ...), which [main] does not catch. *)
Inductive LoadError := LoadNotFound | LoadDecode | LoadOS (msg : string).

Section CopierMain.
Variable host : flavour.
Variable St : Type.
Variable path_exists : St -> PurePath -> bool + string.
Variable mkdir_parents : St -> PurePath -> St * option string.
Variable copy2 : St -> PurePath -> PurePath -> St * option string.
(** [Path.is_dir], which like [Path.exists] may re-raise the [OSError] of
    [stat] ([inr]). *)
Variable path_is_dir : St -> PurePath -> bool + string.
(** [json.load] of a file. *)
Variable load_stack_json : St -> PurePath -> json + LoadError.
(** The recursion units left when [main] calls [extract_paths] (the module
    and [main] hold two frames: 998 with the default limit of 1000). *)
Variable budget : nat.

(** [config.stack_dir / f"stack-{config.source}.json"]. *)
Definition stack_file (config : CopierConfig) : PurePath :=
  join (ccfg_stack_dir config)
       (parse host (String.append "stack-" (String.append (ccfg_source config) ".json"))).

(** [validate_config]; the error messages are left out, and [inr] is an
    exception of [is_dir] or [exists], which escapes. *)
Definition validate_config (st : St) (config : CopierConfig) : bool + string :=
  match path_is_dir st (ccfg_repo_root config) with
  | inr e => inr e
  | inl false => inl false
  | inl true => path_exists st (stack_file config)
  end.

(** [main] of [my/curadoria/generate-github-base.py] after
    [Config.from_args]; printing is left out. *)
Definition copier_main (st : St) (config : CopierConfig) : St * Outcome :=
  match validate_config st config with
  | inr e => (st, Uncaught e)
  | inl false => (st, Exit 1)
  | inl true =>
      match load_stack_json st (stack_file config) with
      | inr (LoadOS e) => (st, Uncaught e)
      | inr _ => (st, Exit 1)
      | inl data =>
          match extract_paths_rec budget data with
          | None => (st, Uncaught "RecursionError")
          | Some [] => (st, Exit 1)
          | Some paths =>
              match copy_files_batch host St path_exists mkdir_parents copy2 st
                      (ccfg_repo_root config) (ccfg_dest_dir config) paths with
              | (st1, inl results) => (st1, Exit 0)
              | (st1, inr e) => (st1, Uncaught e)
              end
          end
      end
  end.
End CopierMain.

(** [log_copied_files] (and the same loop in [main] of
    [curadoria/generate-github-base.py]): the lines printed for the copied
    files, each path shown relative to the repository root, else relative
    to the destination, else in full. *)
Definition copied_line (f : flavour) (item repo_root dest_root : PurePath) : string :=
  String.append "  "
    (match relative_to item repo_root with
     | Some rel_path => str_path f rel_path
     | None =>
         match relative_to item dest_root with
         | Some rel_path => str_path f rel_path
         | None => str_path f item
         end
     end).

Definition log_copied_files (f : flavour) (copied : list PurePath) (repo_root dest_root : PurePath)
    : list string :=
  match copied with
  | [] => []
  | _ => String nl "Copied files:" :: map (fun item => copied_line f item repo_root dest_root) copied
  end.

(* ================================================================== *)
(** * Properties *)

(* ------------------------------------------------------------------ *)
(** ** The path extractors *)

Lemma dict_case_get {A : Type} (k : string) (found : json -> A) (missing : A) kv :
  dict_case k found missing kv =
  match dict_get k kv with Some v => found v | None => missing end.
Proof.
  induction kv as [|[k' v] kv IH]; simpl; [reflexivity|].
  destruct (String.eqb k' k); [reflexivity | exact IH].
Qed.

Lemma dict_get_In k kv v : dict_get k kv = Some v -> In (k, v) kv.
Proof.
  induction kv as [|[k' v'] kv IH]; simpl; [discriminate|].
  destruct (String.eqb k' k) eqn:E; intros H.
  - apply String.eqb_eq in E; subst. inversion H; subst. left; reflexivity.
  - right; auto.
Qed.

Lemma fold_app_concat (g : json -> list string) items acc :
  fold_left (fun acc item => acc ++ g item) items acc = acc ++ concat (map g items).
Proof.
  revert acc; induction items as [|x items IH]; intros acc; simpl.
  - rewrite app_nil_r; reflexivity.
  - rewrite IH, app_assoc; reflexivity.
Qed.

Lemma _extract_paths_arr items : _extract_paths (JArr items) = concat (map _extract_paths items).
Proof. simpl. rewrite fold_app_concat. reflexivity. Qed.

Lemma extract_paths_arr items : extract_paths (JArr items) = concat (map extract_paths items).
Proof. simpl. rewrite fold_app_concat. reflexivity. Qed.

Lemma _extract_paths_obj kv :
  _extract_paths (JObj kv) =
  match dict_get "files" kv with
  | Some v => _extract_paths v
  | None => match dict_get "path" kv with Some (JStr p) => [p] | _ => [] end
  end.
Proof. simpl. rewrite dict_case_get. reflexivity. Qed.

Lemma extract_paths_obj kv :
  extract_paths (JObj kv) =
  match dict_get "files" kv with
  | Some v => extract_paths v
  | None =>
      match dict_get "path" kv with
      | Some path => if truthy path then match path with JStr p => [p] | _ => [] end else []
      | None => []
      end
  end.
Proof. simpl. rewrite dict_case_get. reflexivity. Qed.

Lemma empty_path_reached_obj kv :
  empty_path_reached (JObj kv) =
  match dict_get "files" kv with
  | Some v => empty_path_reached v
  | None => match dict_get "path" kv with Some (JStr EmptyString) => true | _ => false end
  end.
Proof. simpl. rewrite dict_case_get. reflexivity. Qed.

Lemma Forall_snd_get (P : json -> Prop) kv k v :
  Forall (fun kv1 => P (snd kv1)) kv -> dict_get k kv = Some v -> P v.
Proof.
  intros HF Hg. apply dict_get_In in Hg.
  rewrite Forall_forall in HF. exact (HF _ Hg).
Qed.

(** The imperative extractor follows the specification's precedence. *)
Lemma _extract_paths_meets_spec (j : json) : extract_spec j (_extract_paths j).
Proof.
  induction j as [| b | q | s | items IH | kv IH] using json_ind'.
  - constructor.
  - constructor.
  - constructor.
  - constructor.
  - rewrite _extract_paths_arr. constructor.
    induction IH as [|x items Hx _ IHl]; simpl; constructor; assumption.
  - rewrite _extract_paths_obj.
    destruct (dict_get "files" kv) as [v|] eqn:Ef.
    + eapply spec_files; [exact Ef|].
      exact (Forall_snd_get (fun v => extract_spec v (_extract_paths v)) _ _ _ IH Ef).
    + destruct (dict_get "path" kv) as [p|] eqn:Ep.
      * destruct p; try (apply spec_obj_other; [assumption | intros p'; rewrite Ep; discriminate]).
        apply spec_path; assumption.
      * apply spec_obj_other; [assumption | intros p'; rewrite Ep; discriminate].
Qed.

(** Off the empty-path case, the two extractors compute the same list. *)
Lemma extractors_agree (j : json) :
  empty_path_reached j = false -> extract_paths j = _extract_paths j.
Proof.
  induction j as [| b | q | s | items IH | kv IH] using json_ind'; intros Hr;
    try reflexivity.
  - rewrite extract_paths_arr, _extract_paths_arr. f_equal.
    simpl in Hr.
    induction IH as [|x items Hx _ IHl]; simpl in *; [reflexivity|].
    apply orb_false_iff in Hr as [H1 H2]. rewrite (Hx H1), (IHl H2). reflexivity.
  - rewrite extract_paths_obj, _extract_paths_obj.
    rewrite empty_path_reached_obj in Hr.
    destruct (dict_get "files" kv) as [v|] eqn:Ef.
    + exact (Forall_snd_get (fun v => empty_path_reached v = false -> extract_paths v = _extract_paths v)
               _ _ _ IH Ef Hr).
    + destruct (dict_get "path" kv) as [p|]; [|reflexivity].
      destruct p; simpl; try reflexivity.
      * destruct b; reflexivity.
      * destruct (negb (Qeq_bool q 0)); reflexivity.
      * destruct s as [|c s]; [discriminate Hr | reflexivity].
      * destruct (negb (Nat.eqb (length items) 0)); reflexivity.
      * destruct (negb (Nat.eqb (length kv0) 0)); reflexivity.
Qed.

(** The recursion budget of the extractors. *)
Lemma leb_max_and x y z : Nat.leb (Nat.max x y) z = Nat.leb x z && Nat.leb y z.
Proof.
  destruct (Nat.leb_spec x z), (Nat.leb_spec y z), (Nat.leb_spec (Nat.max x y) z); simpl;
    try reflexivity; lia.
Qed.

Lemma fold_left_none {A B : Type} (g : option A -> B -> option A) l :
  (forall x, g None x = None) -> fold_left g l None = None.
Proof. intros Hg; induction l as [|x l IH]; simpl; [reflexivity|]. rewrite Hg; exact IH. Qed.

Lemma extract_paths_rec_frames :
  forall j budget,
  extract_paths_rec budget j =
  if Nat.leb (extract_paths_frames j) budget then Some (extract_paths j) else None.
Proof.
  intros j; induction j as [| b | q | s | items IH | kv IH] using json_ind';
    intros [|budget]; try reflexivity.
  - change (extract_paths_frames (JArr items))
      with (S (list_max (map (fun item => S (S (extract_paths_frames item))) items))).
    change (Nat.leb (S ?x) (S ?y)) with (Nat.leb x y).
    cbn [extract_paths_rec extract_paths].
    generalize (@nil string) as a.
    induction IH as [|x items Hx _ IHl]; intros a; [reflexivity|].
    cbn [fold_left map]. change (list_max (?u :: ?l)) with (Nat.max u (list_max l)). rewrite leb_max_and.
    destruct budget as [|[|b2]].
    + rewrite fold_left_none by reflexivity. reflexivity.
    + rewrite fold_left_none by reflexivity. reflexivity.
    + rewrite Hx. change (Nat.leb (S (S ?x)) (S (S ?y))) with (Nat.leb x y).
      destruct (Nat.leb (extract_paths_frames x) b2); simpl.
      * apply IHl.
      * apply fold_left_none; reflexivity.
  - change (extract_paths_frames (JObj kv))
      with (S (dict_case "files" extract_paths_frames 0 kv)).
    change (Nat.leb (S ?x) (S ?y)) with (Nat.leb x y).
    cbn [extract_paths_rec]. rewrite extract_paths_obj, !dict_case_get.
    destruct (dict_get "files" kv) as [v|] eqn:Ef; [|reflexivity].
    exact (Forall_snd_get (fun v => forall budget, extract_paths_rec budget v =
             if Nat.leb (extract_paths_frames v) budget then Some (extract_paths v) else None)
             _ _ _ IH Ef budget).
Qed.

Lemma _extract_paths_rec_frames :
  forall j budget,
  _extract_paths_rec budget j =
  if Nat.leb (_extract_paths_frames j) budget then Some (_extract_paths j) else None.
Proof.
  intros j; induction j as [| b | q | s | items IH | kv IH] using json_ind';
    intros [|budget]; try reflexivity.
  - change (_extract_paths_frames (JArr items))
      with (S (list_max (map _extract_paths_frames items))).
    change (Nat.leb (S ?x) (S ?y)) with (Nat.leb x y).
    cbn [_extract_paths_rec _extract_paths].
    generalize (@nil string) as a.
    induction IH as [|x items Hx _ IHl]; intros a; [reflexivity|].
    cbn [fold_left map]. change (list_max (?u :: ?l)) with (Nat.max u (list_max l)). rewrite leb_max_and, Hx.
    destruct (Nat.leb (_extract_paths_frames x) budget); simpl.
    + apply IHl.
    + apply fold_left_none; reflexivity.
  - change (_extract_paths_frames (JObj kv))
      with (S (dict_case "files" _extract_paths_frames 0 kv)).
    change (Nat.leb (S ?x) (S ?y)) with (Nat.leb x y).
    cbn [_extract_paths_rec]. rewrite _extract_paths_obj, !dict_case_get.
    destruct (dict_get "files" kv) as [v|] eqn:Ef; [|reflexivity].
    exact (Forall_snd_get (fun v => forall budget, _extract_paths_rec budget v =
             if Nat.leb (_extract_paths_frames v) budget then Some (_extract_paths v) else None)
             _ _ _ IH Ef budget).
Qed.

Lemma frames_le :
  forall j, _extract_paths_frames j <= extract_paths_frames j.
Proof.
  intros j; induction j as [| b | q | s | items IH | kv IH] using json_ind'; try (simpl; lia).
  - change (S (list_max (map _extract_paths_frames items)) <=
            S (list_max (map (fun item => S (S (extract_paths_frames item))) items))).
    apply le_n_S. induction IH as [|x items Hx _ IHl]; [simpl; lia|]. cbn [map]. change (list_max (?u :: ?l)) with (Nat.max u (list_max l)).
    apply Nat.max_le_compat; lia.
  - change (S (dict_case "files" _extract_paths_frames 0 kv) <=
            S (dict_case "files" extract_paths_frames 0 kv)).
    rewrite !dict_case_get. apply le_n_S.
    destruct (dict_get "files" kv) as [v|] eqn:Ef; [|lia].
    exact (Forall_snd_get (fun v => _extract_paths_frames v <= extract_paths_frames v) _ _ _ IH Ef).
Qed.

(** The output of an extractor is made of the input's string leaves, and is
    no longer than their list. *)
Definition within_strings (out : list string) (j : json) : Prop :=
  incl out (json_strings j) /\ length out <= length (json_strings j).

Lemma flat_map_member_bound {A : Type} (g : A -> list string) l x :
  In x l -> incl (g x) (flat_map g l) /\ length (g x) <= length (flat_map g l).
Proof.
  induction l as [|y l IH]; simpl; [contradiction|].
  intros [<-|Hin]; rewrite length_app; split.
  - apply incl_appl, incl_refl.
  - lia.
  - apply incl_appr. apply IH, Hin.
  - destruct (IH Hin); lia.
Qed.

Lemma within_arr (e : json -> list string) items :
  Forall (fun j => within_strings (e j) j) items ->
  within_strings (concat (map e items)) (JArr items).
Proof.
  unfold within_strings; simpl.
  induction 1 as [|x items [Hi Hl] _ [Ji Jl]]; simpl.
  - split; [apply incl_refl | lia].
  - rewrite !length_app. split; [apply incl_app_app; assumption | lia].
Qed.

Lemma within_obj_value out kv k v :
  dict_get k kv = Some v -> within_strings out v -> within_strings out (JObj kv).
Proof.
  intros Hg [Hi Hl]. apply dict_get_In in Hg.
  destruct (flat_map_member_bound (fun kv1 => json_strings (snd kv1)) kv (k, v) Hg) as [Ji Jl].
  simpl in *. split; [eapply incl_tran; eassumption | eapply Nat.le_trans; eassumption].
Qed.

Lemma within_nil j : within_strings [] j.
Proof. split; [intros x [] | simpl; lia]. Qed.

Lemma within_str s : within_strings [s] (JStr s).
Proof. split; [apply incl_refl | simpl; lia]. Qed.

Ltac extractor_bound eq_arr eq_obj :=
  let items := fresh "items" in let kv := fresh "kv" in let IH := fresh "IH" in
  intros j;
  induction j as [| ? | ? | ? | items IH | kv IH] using json_ind';
  [ apply within_nil | apply within_nil | apply within_nil | apply within_str
  | rewrite eq_arr; apply within_arr; exact IH
  | rewrite eq_obj;
    let v := fresh "v" in let Ef := fresh "Ef" in
    destruct (dict_get "files" kv) as [v|] eqn:Ef;
    [ apply (within_obj_value _ kv "files" v Ef);
      exact (Forall_snd_get (fun v => within_strings _ v) _ _ _ IH Ef)
    | let p := fresh "p" in let Ep := fresh "Ep" in
      destruct (dict_get "path" kv) as [p|] eqn:Ep; [|apply within_nil];
      destruct p; simpl; repeat match goal with |- context [if ?b then _ else _] => destruct b end;
      first [ apply within_nil | exact (within_obj_value _ kv "path" _ Ep (within_str _)) ] ] ].

Lemma extract_paths_within : forall j, within_strings (extract_paths j) j.
Proof. extractor_bound extract_paths_arr extract_paths_obj. Qed.

Lemma _extract_paths_within : forall j, within_strings (_extract_paths j) j.
Proof. extractor_bound _extract_paths_arr _extract_paths_obj. Qed.

(** C3 (code_bug).  The specification's precedence gives [[""]] on the
    mapping [{"path": ""}], and so does [_extract_paths]; the functional
    [extract_paths] tests the value with the walrus' truthiness before its
    [isinstance] check and returns [[]].  The examples of the claim hold. *)
Theorem extract_paths_empty_path_slip :
  extract_spec empty_path_obj [EmptyString] /\
  _extract_paths empty_path_obj = [EmptyString] /\
  extract_paths empty_path_obj = [] /\
  ~ extract_spec empty_path_obj (extract_paths empty_path_obj) /\
  extract_paths (JStr "a/b.md") = ["a/b.md"] /\
  extract_paths (JArr [JObj [("path", JStr "x")]; JObj [("path", JStr "y")]]) = ["x"; "y"] /\
  extract_paths (JObj []) = [].
Proof.
  split; [apply spec_path; reflexivity|].
  split; [reflexivity|]. split; [reflexivity|].
  split; [|repeat split].
  simpl. intros H. inversion H as [| ? ? ? Hf | | ? _ Hp | | | |]; subst.
  - discriminate Hf.
  - exact (Hp EmptyString eq_refl).
Qed.

(** C4.  [extract_paths({"files": X}) == extract_paths(X)] for every JSON
    value [X], and the same for [_extract_paths]. *)
Theorem files_key_delegation (X : json) :
  extract_paths (JObj [("files", X)]) = extract_paths X /\
  _extract_paths (JObj [("files", X)]) = _extract_paths X.
Proof. split; reflexivity. Qed.



(* ------------------------------------------------------------------ *)
(** ** The copiers *)

Section CopierFacts.
Variable host : flavour.
Variable St : Type.
Variable path_exists : St -> PurePath -> bool + string.
Variable mkdir_parents : St -> PurePath -> St * option string.
Variable copy2 : St -> PurePath -> PurePath -> St * option string.

Local Notation single := (copy_single_file St path_exists mkdir_parents copy2).
Local Notation batch_loop := (copy_batch_loop host St path_exists mkdir_parents copy2).
Local Notation imp_loop := (copy_paths_loop host St path_exists mkdir_parents copy2).

(** The outcome of one item of the functional copier. *)
Lemma copy_single_file_outcome st src dest :
  (forall e, snd (single st src dest) = inr e <-> path_exists st src = inr e) /\
  (forall e, path_exists st src = inr e -> fst (single st src dest) = st) /\
  (forall r, snd (single st src dest) = inl r ->
     source r = src /\
     (status r = SKIPPED <-> path_exists st src = inl false) /\
     (status r = SKIPPED -> destination r = None /\ error r = Some "File not found") /\
     (status r = FAILED <->
        path_exists st src = inl true /\
        (snd (mkdir_parents st (parent dest)) <> None \/
         (snd (mkdir_parents st (parent dest)) = None /\
          snd (copy2 (fst (mkdir_parents st (parent dest))) src dest) <> None))) /\
     (status r = FAILED -> destination r = None /\ error r <> None) /\
     (status r = COPIED -> destination r = Some dest /\ error r = None)).
Proof.
  unfold copy_single_file.
  destruct (path_exists st src) as [[|]|e0] eqn:Ex.
  - destruct (mkdir_parents st (parent dest)) as [st1 [e1|]]; simpl.
    + split; [intros e; split; discriminate|]. split; [intros e H; discriminate H|].
      intros r H; injection H as <-; simpl.
      repeat split; try discriminate; auto; left; discriminate.
    + destruct (copy2 st1 src dest) as [st2 [e2|]]; simpl;
        (split; [intros e; split; discriminate|]); (split; [intros e H; discriminate H|]);
        intros r H; injection H as <-; simpl;
        repeat split; try discriminate; auto; try (right; split; [reflexivity | discriminate]);
        intros [_ [Hn|[_ Hn]]]; congruence.
  - simpl. split; [intros e; split; discriminate|]. split; [intros e H; discriminate H|].
    intros r H; injection H as <-; simpl.
    repeat split; try discriminate; auto; intros [Hn _]; discriminate Hn.
  - simpl. split; [intros e; split; congruence|]. split; [reflexivity|].
    intros r H; discriminate H.
Qed.

Lemma copy_batch_loop_step st rr fd p ps :
  batch_loop st rr fd (p :: ps) =
  match single st (join rr (parse host p)) (join fd (parse host p)) with
  | (st1, inr e) => (st1, inr e)
  | (st1, inl r) =>
      match batch_loop st1 rr fd ps with
      | (st2, inl rs) => (st2, inl (r :: rs))
      | (st2, inr e) => (st2, inr e)
      end
  end.
Proof. reflexivity. Qed.

Lemma copy_batch_loop_app st rr fd pre rest st1 rs :
  batch_loop st rr fd pre = (st1, inl rs) ->
  batch_loop st rr fd (pre ++ rest) =
  match batch_loop st1 rr fd rest with
  | (st2, inl rs') => (st2, inl (rs ++ rs'))
  | (st2, inr e) => (st2, inr e)
  end.
Proof.
  revert st rs; induction pre as [|p pre IH]; intros st rs H.
  - injection H as <- <-. simpl. destruct (batch_loop st rr fd rest) as [? [?|?]]; reflexivity.
  - rewrite <- app_comm_cons, !copy_batch_loop_step. rewrite copy_batch_loop_step in H.
    destruct (single st _ _) as [st' [r|e]]; [|discriminate H].
    destruct (batch_loop st' rr fd pre) as [st'' [rs0|e]] eqn:E; [|discriminate H].
    injection H as <- <-. rewrite (IH st' rs0 E).
    destruct (batch_loop st'' rr fd rest) as [? [?|?]]; reflexivity.
Qed.

Lemma copy_paths_loop_app st rr fd pre rest st1 ds :
  imp_loop st rr fd pre = (st1, inl ds) ->
  imp_loop st rr fd (pre ++ rest) =
  let '(st2, r) := imp_loop st1 rr fd rest in
  (st2, match r with inl ds' => inl (ds ++ ds') | inr e => inr e end).
Proof.
  revert st ds; induction pre as [|p pre IH]; intros st ds H.
  - injection H as <- <-. simpl. destruct (imp_loop st rr fd rest) as [? [?|?]]; reflexivity.
  - rewrite <- app_comm_cons. cbn [copy_paths_loop] in H |- *.
    destruct (path_exists st _) as [[|]|e]; try discriminate H.
    destruct (mkdir_parents st _) as [s1 [e1|]]; try discriminate H.
    destruct (copy2 s1 _ _) as [s2 [e2|]]; try discriminate H.
    destruct (imp_loop s2 rr fd pre) as [s3 [ds0|e]] eqn:E; [|discriminate H].
    injection H as <- <-. rewrite (IH s2 ds0 E).
    destruct (imp_loop s3 rr fd rest) as [? [?|?]]; reflexivity.
Qed.

Lemma copy_single_no_raise st src dest :
  (exists b, path_exists st src = inl b) -> exists st1 r, single st src dest = (st1, inl r).
Proof.
  intros [b Hb]. unfold copy_single_file. rewrite Hb. destruct b.
  - destruct (mkdir_parents st (parent dest)) as [st1 [e1|]]; [eauto|].
    destruct (copy2 st1 src dest) as [st2 [e2|]]; eauto.
  - eauto.
Qed.

Lemma copy_batch_loop_total st rr fd ps :
  (forall st' p, In p ps -> exists b, path_exists st' (join rr (parse host p)) = inl b) ->
  exists st' rs, batch_loop st rr fd ps = (st', inl rs) /\ length rs = length ps.
Proof.
  revert st; induction ps as [|p ps IH]; intros st Hn; [exists st, []; auto|].
  rewrite copy_batch_loop_step.
  destruct (copy_single_no_raise st (join rr (parse host p)) (join fd (parse host p)))
    as [st1 [r Hs]]; [apply Hn; left; reflexivity|].
  rewrite Hs.
  destruct (IH st1) as [st' [rs [Hb Hl]]]; [intros st'' q Hq; apply Hn; right; exact Hq|].
  rewrite Hb. exists st', (r :: rs). simpl; auto.
Qed.

Lemma copy_batch_loop_length st rr fd ps st' rs :
  batch_loop st rr fd ps = (st', inl rs) -> length rs = length ps.
Proof.
  revert st rs; induction ps as [|p ps IH]; intros st rs H.
  - injection H as _ <-. reflexivity.
  - rewrite copy_batch_loop_step in H.
    destruct (single st _ _) as [st1 [r|e]]; [|discriminate H].
    destruct (batch_loop st1 rr fd ps) as [st2 [rs0|e]] eqn:E; [|discriminate H].
    injection H as <- <-. simpl. rewrite (IH st1 rs0 E). reflexivity.
Qed.

Lemma copy_batch_loop_results st rr fd ps st' rs :
  batch_loop st rr fd ps = (st', inl rs) ->
  Forall (fun r => status r = COPIED -> destination r <> None) rs.
Proof.
  revert st rs; induction ps as [|p ps IH]; intros st rs H.
  - injection H as _ <-. constructor.
  - rewrite copy_batch_loop_step in H.
    destruct (single st (join rr (parse host p)) (join fd (parse host p))) as [st1 [r|e]] eqn:Es;
      [|discriminate H].
    destruct (batch_loop st1 rr fd ps) as [st2 [rs0|e]] eqn:E; [|discriminate H].
    injection H as <- <-. constructor; [|exact (IH st1 rs0 E)].
    destruct (copy_single_file_outcome st (join rr (parse host p)) (join fd (parse host p)))
      as [_ [_ Ho]].
    rewrite Es in Ho. destruct (Ho r eq_refl) as [_ [_ [_ [_ [_ Hc]]]]].
    intros Hs. rewrite (proj1 (Hc Hs)). discriminate.
Qed.

(** The two loops run the same operations on the longest prefix whose
    files are all copied; on the next path the imperative loop raises. *)
Lemma copy_loops_related st rr fd ps :
  exists pre rest st1 rs ds,
    ps = pre ++ rest /\
    batch_loop st rr fd pre = (st1, inl rs) /\
    imp_loop st rr fd pre = (st1, inl ds) /\
    forallb is_copied rs = true /\ map Some ds = map destination rs /\
    match rest with
    | [] => True
    | p :: post =>
        match single st1 (join rr (parse host p)) (join fd (parse host p)) with
        | (st2, inr e) => imp_loop st1 rr fd rest = (st2, inr (OSError e))
        | (st2, inl r) =>
            is_copied r = false /\
            ((status r = SKIPPED /\
              imp_loop st1 rr fd rest = (st2, inr (FileNotFoundError (join rr (parse host p))))) \/
             (status r = FAILED /\ exists e, error r = Some e /\
              imp_loop st1 rr fd rest = (st2, inr (OSError e))))
        end
    end.
Proof.
  revert st; induction ps as [|p ps IH]; intros st.
  - exists [], [], st, [], []. repeat split.
  - destruct (path_exists st (join rr (parse host p))) as [[|]|e] eqn:Ex.
    + destruct (mkdir_parents st (parent (join fd (parse host p)))) as [st1 [e1|]] eqn:Em.
      * exists [], (p :: ps), st, [], []. repeat split.
        unfold copy_single_file. rewrite Ex, Em. split; [reflexivity|].
        right. split; [reflexivity|]. exists e1. split; [reflexivity|].
        cbn [copy_paths_loop]. rewrite Ex, Em. reflexivity.
      * destruct (copy2 st1 (join rr (parse host p)) (join fd (parse host p)))
          as [st2 [e2|]] eqn:Ec.
        -- exists [], (p :: ps), st, [], []. repeat split.
           unfold copy_single_file. rewrite Ex, Em, Ec. split; [reflexivity|].
           right. split; [reflexivity|]. exists e2. split; [reflexivity|].
           cbn [copy_paths_loop]. rewrite Ex, Em, Ec. reflexivity.
        -- destruct (IH st2) as [pre [rest [st3 [rs [ds [Heq [Hb [Hi [Hf [Hm HR]]]]]]]]]].
           exists (p :: pre), rest, st3,
             (mkResult (join rr (parse host p)) (Some (join fd (parse host p))) COPIED None :: rs),
             (join fd (parse host p) :: ds).
           split; [rewrite Heq; reflexivity|].
           split.
           { rewrite copy_batch_loop_step. unfold copy_single_file at 1.
             rewrite Ex, Em, Ec, Hb. reflexivity. }
           split.
           { cbn [copy_paths_loop]. rewrite Ex, Em, Ec, Hi. reflexivity. }
           split; [exact Hf|]. split; [simpl; rewrite Hm; reflexivity|]. exact HR.
    + exists [], (p :: ps), st, [], []. repeat split.
      unfold copy_single_file. rewrite Ex. split; [reflexivity|].
      left. split; [reflexivity|]. cbn [copy_paths_loop]. rewrite Ex. reflexivity.
    + exists [], (p :: ps), st, [], []. repeat split.
      unfold copy_single_file. rewrite Ex. cbn [copy_paths_loop]. rewrite Ex. reflexivity.
Qed.

End CopierFacts.

Lemma aggregate_counts rs :
  Forall (fun r => status r = COPIED -> destination r <> None) rs ->
  length (copied (aggregate_results rs)) = count_status COPIED rs /\
  skipped (aggregate_results rs) = count_status SKIPPED rs + count_status FAILED rs /\
  total (aggregate_results rs) = length rs.
Proof.
  unfold total, count_status; simpl.
  induction 1 as [|r rs Hr _ [H1 [H2 H3]]]; simpl; [auto|].
  destruct (status r) eqn:Es; simpl.
  - destruct (destination r) eqn:Ed; [|exfalso; exact (Hr eq_refl eq_refl)].
    simpl. rewrite H1. repeat split; try lia.
  - repeat split; lia.
  - repeat split; lia.
Qed.

(** C1 (counterexample).  Both copiers can abort a batch.  The imperative
    [_copy_paths], with [missing.md] listed before the existing [a.md],
    raises [FileNotFoundError] and [a.md] is never copied (the state is
    unchanged), while [copy_files_batch] goes on and copies it.  But
    [copy_files_batch] aborts too when [src.exists()] raises: a manifest
    entry whose name exceeds [NAME_MAX] makes [exists] raise
    [ENAMETOOLONG] (CPython up to 3.12), which escapes the whole batch
    before [a.md] is reached. *)
Lemma copy_paths_aborts_batch :
  _copy_paths Posix (list PurePath) simple_exists simple_mkdir simple_copy2
    fs_one repo out_dir paths_missing_first
  = (fs_one, inr (FileNotFoundError (mkPath true ["repo"; "missing.md"]))) /\
  copy_files_batch Posix (list PurePath) simple_exists simple_mkdir simple_copy2
    fs_one repo out_dir paths_missing_first
  = (mkPath true ["repo"; "out"; "a.md"] :: fs_one,
     inl [mkResult (mkPath true ["repo"; "missing.md"]) None SKIPPED (Some "File not found");
          mkResult (mkPath true ["repo"; "a.md"]) (Some (mkPath true ["repo"; "out"; "a.md"])) COPIED None]) /\
  copy_files_batch Posix (list PurePath) simple_exists simple_mkdir simple_copy2
    fs_one repo out_dir [long_name; "a.md"]
  = (fs_one, inr "[Errno 36] File name too long").
Proof. repeat split; vm_compute; reflexivity. Qed.

(** C1 (amended).  The functional copier handles the paths one after the
    other.  An item is skipped when [exists] answers [False] and failed
    when [mkdir] or [copy2] raises; after such an item, as after a copied
    one, the rest of the list is processed from the resulting state.  The
    batch aborts, losing every result, exactly when a call of
    [src.exists()] raises.  When none does, there is one result per path.
    The imperative [_copy_paths] raises [FileNotFoundError] at the first
    missing source, and lets the errors of [exists], [mkdir] and [copy2]
    propagate, wherever the path is in the list. *)
Theorem copy_batch_never_aborts (host : flavour) (St : Type) (ex : St -> PurePath -> bool + string)
    (mk : St -> PurePath -> St * option string)
    (cp : St -> PurePath -> PurePath -> St * option string) :
  (forall st src dest,
     (forall e, snd (copy_single_file St ex mk cp st src dest) = inr e <-> ex st src = inr e) /\
     (forall e, ex st src = inr e -> fst (copy_single_file St ex mk cp st src dest) = st) /\
     (forall r, snd (copy_single_file St ex mk cp st src dest) = inl r ->
        source r = src /\
        (status r = SKIPPED <-> ex st src = inl false) /\
        (status r = SKIPPED -> destination r = None /\ error r = Some "File not found") /\
        (status r = FAILED <->
           ex st src = inl true /\
           (snd (mk st (parent dest)) <> None \/
            (snd (mk st (parent dest)) = None /\ snd (cp (fst (mk st (parent dest))) src dest) <> None))) /\
        (status r = FAILED -> destination r = None /\ error r <> None) /\
        (status r = COPIED -> destination r = Some dest /\ error r = None))) /\
  (forall st rr dr pre p post st1 rs,
     copy_files_batch host St ex mk cp st rr dr pre = (st1, inl rs) ->
     copy_files_batch host St ex mk cp st rr dr (pre ++ p :: post) =
     match copy_single_file St ex mk cp st1 (join rr (parse host p))
             (join (resolve_destination dr rr) (parse host p)) with
     | (st2, inr e) => (st2, inr e)
     | (st2, inl r) =>
         match copy_files_batch host St ex mk cp st2 rr dr post with
         | (st3, inl rs') => (st3, inl (rs ++ r :: rs'))
         | (st3, inr e) => (st3, inr e)
         end
     end) /\
  (forall st rr dr ps,
     (forall st' p, In p ps -> exists b, ex st' (join rr (parse host p)) = inl b) ->
     exists st' rs, copy_files_batch host St ex mk cp st rr dr ps = (st', inl rs) /\
                    length rs = length ps) /\
  (forall st rr dr ps st' rs,
     copy_files_batch host St ex mk cp st rr dr ps = (st', inl rs) -> length rs = length ps) /\
  (forall st rr dr pre p post st1 ds,
     let src := join rr (parse host p) in
     let dest := join (if anchored dr then dr else join rr dr) (parse host p) in
     _copy_paths host St ex mk cp st rr dr pre = (st1, inl ds) ->
     (ex st1 src = inl false ->
        _copy_paths host St ex mk cp st rr dr (pre ++ p :: post) = (st1, inr (FileNotFoundError src))) /\
     (forall e, ex st1 src = inr e ->
        _copy_paths host St ex mk cp st rr dr (pre ++ p :: post) = (st1, inr (OSError e))) /\
     (forall e, ex st1 src = inl true -> snd (mk st1 (parent dest)) = Some e ->
        _copy_paths host St ex mk cp st rr dr (pre ++ p :: post) =
        (fst (mk st1 (parent dest)), inr (OSError e))) /\
     (forall e, ex st1 src = inl true -> snd (mk st1 (parent dest)) = None ->
        snd (cp (fst (mk st1 (parent dest))) src dest) = Some e ->
        _copy_paths host St ex mk cp st rr dr (pre ++ p :: post) =
        (fst (cp (fst (mk st1 (parent dest))) src dest), inr (OSError e)))).
Proof.
  split; [intros; apply copy_single_file_outcome|].
  split.
  { intros st rr dr pre p post st1 rs H. unfold copy_files_batch in *.
    rewrite (copy_batch_loop_app _ _ _ _ _ _ _ _ _ _ _ _ H), copy_batch_loop_step.
    destruct (copy_single_file St ex mk cp st1 _ _) as [st2 [r|e]]; [|reflexivity].
    destruct (copy_batch_loop host St ex mk cp st2 rr _ post) as [st3 [rs'|e]]; reflexivity. }
  split; [intros; apply copy_batch_loop_total; assumption|].
  split; [intros st rr dr ps st' rs; apply copy_batch_loop_length|].
  intros st rr dr pre p post st1 ds src dest H. unfold _copy_paths in *.
  rewrite (copy_paths_loop_app _ _ _ _ _ _ _ _ _ _ _ _ H). cbn [copy_paths_loop].
  fold src dest.
  split; [intros Hx; rewrite Hx; reflexivity|].
  split; [intros e Hx; rewrite Hx; reflexivity|].
  split.
  - intros e Hx Hm. rewrite Hx. destruct (mk st1 (parent dest)) as [s1 e1]. simpl in Hm. subst e1.
    reflexivity.
  - intros e Hx Hm Hc. rewrite Hx. destruct (mk st1 (parent dest)) as [s1 e1]. simpl in Hm, Hc.
    subst e1. cbn [fst] in *. destruct (cp s1 src dest) as [s2 e2]. simpl in Hc. subst e2.
    reflexivity.
Qed.

Lemma copy_batch_never_aborts_witness :
  exists st' rs,
    copy_files_batch Posix (list PurePath) simple_exists simple_mkdir simple_copy2
      fs_one repo out_dir paths_missing_first = (st', inl rs) /\ length rs = 2.
Proof.
  apply (proj1 (proj2 (proj2 (copy_batch_never_aborts Posix (list PurePath) simple_exists
                                simple_mkdir simple_copy2)))).
  intros st' p [<-|[<-|[]]]; eexists; vm_compute; reflexivity.
Defined.

(** C2 (counterexample).  On the same manifest the two copiers give
    different per-file outcomes: the functional one skips [missing.md] and
    copies [a.md]; the imperative one raises on [missing.md].  And the two
    extractors differ on a manifest of 400 nested lists: with the 998
    recursion units [main] leaves, [extract_paths] raises
    [RecursionError] and [_extract_paths] returns. *)
Lemma copiers_diverge_on_missing_source :
  copy_files_batch Posix (list PurePath) simple_exists simple_mkdir simple_copy2
    fs_one repo out_dir paths_missing_first
  = (mkPath true ["repo"; "out"; "a.md"] :: fs_one,
     inl [mkResult (mkPath true ["repo"; "missing.md"]) None SKIPPED (Some "File not found");
          mkResult (mkPath true ["repo"; "a.md"]) (Some (mkPath true ["repo"; "out"; "a.md"])) COPIED None]) /\
  snd (_copy_paths Posix (list PurePath) simple_exists simple_mkdir simple_copy2
         fs_one repo out_dir paths_missing_first)
  = inr (FileNotFoundError (mkPath true ["repo"; "missing.md"])) /\
  extract_paths_rec 998 (nest_list 400 (JStr "a")) = None /\
  _extract_paths_rec 998 (nest_list 400 (JStr "a")) = Some ["a"].
Proof. repeat split; vm_compute; reflexivity. Qed.

(** C2 (amended).  The two extractors compute the same list on every JSON
    value whose traversal meets no mapping without ["files"] and with an
    empty-string ["path"], and whenever [extract_paths] returns,
    [_extract_paths], which needs fewer recursion units, returns the same
    list.  The two copiers run the same operations on the longest prefix
    of the manifest whose files [copy_files_batch] all copies (same state,
    same destinations, in order).  On the next path, if any: when
    [exists] raises, both raise it from the same state; otherwise
    [copy_files_batch] records the path as skipped or failed and goes on,
    while [_copy_paths] stops, with [FileNotFoundError] for a skipped path
    and with the recorded [OSError] for a failed one. *)
Theorem variants_agree_but_copier_errors (host : flavour) (St : Type)
    (ex : St -> PurePath -> bool + string)
    (mk : St -> PurePath -> St * option string)
    (cp : St -> PurePath -> PurePath -> St * option string) :
  (forall j, empty_path_reached j = false -> extract_paths j = _extract_paths j) /\
  (forall budget j l, empty_path_reached j = false ->
     extract_paths_rec budget j = Some l -> _extract_paths_rec budget j = Some l) /\
  (forall st rr dr ps,
     exists pre rest st1 rs ds,
       ps = pre ++ rest /\
       copy_files_batch host St ex mk cp st rr dr pre = (st1, inl rs) /\
       _copy_paths host St ex mk cp st rr dr pre = (st1, inl ds) /\
       forallb is_copied rs = true /\ map Some ds = map destination rs /\
       match rest with
       | [] => True
       | p :: post =>
           let src := join rr (parse host p) in
           let dest := join (resolve_destination dr rr) (parse host p) in
           match copy_single_file St ex mk cp st1 src dest with
           | (st2, inr e) =>
               copy_files_batch host St ex mk cp st rr dr ps = (st2, inr e) /\
               _copy_paths host St ex mk cp st rr dr ps = (st2, inr (OSError e))
           | (st2, inl r) =>
               is_copied r = false /\
               copy_files_batch host St ex mk cp st rr dr ps =
                 match copy_files_batch host St ex mk cp st2 rr dr post with
                 | (st3, inl rs') => (st3, inl (rs ++ r :: rs'))
                 | (st3, inr e) => (st3, inr e)
                 end /\
               ((status r = SKIPPED /\
                 _copy_paths host St ex mk cp st rr dr ps = (st2, inr (FileNotFoundError src))) \/
                (status r = FAILED /\ exists e, error r = Some e /\
                 _copy_paths host St ex mk cp st rr dr ps = (st2, inr (OSError e))))
           end
       end).
Proof.
  split; [exact extractors_agree|].
  split.
  { intros budget j l Hr. rewrite extract_paths_rec_frames, _extract_paths_rec_frames.
    destruct (Nat.leb (extract_paths_frames j) budget) eqn:E; [|discriminate].
    intros H; injection H as <-.
    apply Nat.leb_le in E. pose proof (frames_le j) as Hle.
    replace (Nat.leb (_extract_paths_frames j) budget) with true
      by (symmetry; apply Nat.leb_le; lia).
    rewrite (extractors_agree j Hr). reflexivity. }
  intros st rr dr ps. unfold copy_files_batch, _copy_paths. unfold resolve_destination.
  destruct (copy_loops_related host St ex mk cp st rr (if anchored dr then dr else join rr dr) ps)
    as [pre [rest [st1 [rs [ds [Heq [Hb [Hi [Hf [Hm HR]]]]]]]]]].
  exists pre, rest, st1, rs, ds.
  split; [exact Heq|]. split; [exact Hb|]. split; [exact Hi|]. split; [exact Hf|].
  split; [exact Hm|].
  destruct rest as [|p post]; [exact I|]. subst ps. cbv zeta.
  rewrite (copy_batch_loop_app _ _ _ _ _ _ _ _ _ _ _ _ Hb).
  rewrite (copy_paths_loop_app _ _ _ _ _ _ _ _ _ _ _ _ Hi).
  rewrite copy_batch_loop_step.
  destruct (copy_single_file St ex mk cp st1 _ _) as [st2 [r|e]].
  - destruct HR as [Hc [[Hs Hi2]|[Hs [e [He Hi2]]]]]; rewrite Hi2.
    + split; [exact Hc|]. split.
      * destruct (copy_batch_loop host St ex mk cp st2 rr _ post) as [st3 [rs'|e]]; reflexivity.
      * left; split; [exact Hs | reflexivity].
    + split; [exact Hc|]. split.
      * destruct (copy_batch_loop host St ex mk cp st2 rr _ post) as [st3 [rs'|e']]; reflexivity.
      * right; split; [exact Hs|]. exists e; split; [exact He | reflexivity].
  - rewrite HR. split; reflexivity.
Qed.

Lemma variants_agree_but_copier_errors_witness :
  empty_path_reached (JArr [JObj [("path", JStr "x")]; JStr "y"]) = false /\
  extract_paths_rec 998 (JArr [JObj [("path", JStr "x")]; JStr "y"]) = Some ["x"; "y"] /\
  _extract_paths_rec 998 (JArr [JObj [("path", JStr "x")]; JStr "y"]) = Some ["x"; "y"].
Proof.
  split; [reflexivity|]. split; [vm_compute; reflexivity|].
  apply (proj1 (proj2 (variants_agree_but_copier_errors Posix (list PurePath) simple_exists
                         simple_mkdir simple_copy2))).
  - reflexivity.
  - vm_compute; reflexivity.
Defined.

(** C7 (counterexample).  One file copied and one skipped: [c = 1],
    [s = 1], and the reported success rate is the float [50.0] (a
    percentage), not [c / (c + s) = 0.5].  Being computed as
    [(c / (c + s)) * 100] with two roundings, it is not always the
    correctly rounded [100 c / (c + s)] either: for [c = 1], [s = 2] it is
    [33.33333333333333], not [100 / 3 = 33.333333333333336]. *)
Lemma success_rate_is_not_a_fraction :
  copy_files_batch Posix (list PurePath) simple_exists simple_mkdir simple_copy2
    fs_one repo out_dir paths_missing_first
  = (mkPath true ["repo"; "out"; "a.md"] :: fs_one,
     inl [mkResult (mkPath true ["repo"; "missing.md"]) None SKIPPED (Some "File not found");
          mkResult (mkPath true ["repo"; "a.md"]) (Some (mkPath true ["repo"; "out"; "a.md"])) COPIED None]) /\
  let stats := aggregate_results
     [mkResult (mkPath true ["repo"; "missing.md"]) None SKIPPED (Some "File not found");
      mkResult (mkPath true ["repo"; "a.md"]) (Some (mkPath true ["repo"; "out"; "a.md"])) COPIED None] in
  length (copied stats) = 1 /\ skipped stats = 1 /\
  success_rate stats = float_of_nat 50 /\ success_rate stats <> int_true_div 1 2 /\
  success_rate (mkStats [repo] 2) <> int_true_div 100 3.
Proof.
  split; [vm_compute; reflexivity|].
  vm_compute. split; [reflexivity|]. split; [reflexivity|]. split; [reflexivity|].
  split; discriminate.
Qed.

(** C7 (amended).  For the results of a batch copy that did not abort, the
    copied count [c] and the skipped-or-failed count [s] add up to the
    number of paths, and the success rate is the float percentage
    [c / (c + s) * 100]: the true division rounded to a float, then the
    product with [100] rounded ([0.0] for an empty batch). *)
Theorem success_rate_is_percentage (host : flavour) (St : Type)
    (ex : St -> PurePath -> bool + string)
    (mk : St -> PurePath -> St * option string)
    (cp : St -> PurePath -> PurePath -> St * option string) st rr dr ps st' results
    (H : copy_files_batch host St ex mk cp st rr dr ps = (st', inl results)) :
  let stats := aggregate_results results in
  length (copied stats) = count_status COPIED results /\
  skipped stats = count_status SKIPPED results + count_status FAILED results /\
  length (copied stats) + skipped stats = length ps /\
  success_rate stats =
  match ps with
  | [] => S754_zero false
  | _ => float_mul_int (int_true_div (length (copied stats)) (length ps)) 100
  end.
Proof.
  cbv zeta. unfold copy_files_batch in H.
  pose proof (copy_batch_loop_results _ _ _ _ _ _ _ _ _ _ _ H) as HF.
  pose proof (copy_batch_loop_length _ _ _ _ _ _ _ _ _ _ _ H) as HL.
  destruct (aggregate_counts _ HF) as [H1 [H2 H3]].
  rewrite HL in H3. unfold total in H3.
  split; [exact H1|]. split; [exact H2|]. split; [exact H3|].
  unfold success_rate, total. rewrite H3.
  destruct ps; reflexivity.
Qed.

Lemma success_rate_is_percentage_witness :
  copy_files_batch Posix (list PurePath) simple_exists simple_mkdir simple_copy2
    fs_one repo out_dir paths_missing_first
  = (mkPath true ["repo"; "out"; "a.md"] :: fs_one,
     inl [mkResult (mkPath true ["repo"; "missing.md"]) None SKIPPED (Some "File not found");
          mkResult (mkPath true ["repo"; "a.md"]) (Some (mkPath true ["repo"; "out"; "a.md"])) COPIED None]) /\
  success_rate (aggregate_results
     [mkResult (mkPath true ["repo"; "missing.md"]) None SKIPPED (Some "File not found");
      mkResult (mkPath true ["repo"; "a.md"]) (Some (mkPath true ["repo"; "out"; "a.md"])) COPIED None])
  = float_mul_int (int_true_div 1 2) 100.
Proof.
  assert (Hb : copy_files_batch Posix (list PurePath) simple_exists simple_mkdir simple_copy2
    fs_one repo out_dir paths_missing_first
  = (mkPath true ["repo"; "out"; "a.md"] :: fs_one,
     inl [mkResult (mkPath true ["repo"; "missing.md"]) None SKIPPED (Some "File not found");
          mkResult (mkPath true ["repo"; "a.md"]) (Some (mkPath true ["repo"; "out"; "a.md"])) COPIED None]))
    by (vm_compute; reflexivity).
  split; [exact Hb|].
  destruct (success_rate_is_percentage Posix (list PurePath) simple_exists simple_mkdir simple_copy2
              fs_one repo out_dir paths_missing_first _ _ Hb) as [_ [_ [_ T]]].
  rewrite T. reflexivity.
Defined.

(* ------------------------------------------------------------------ *)
(** ** Description extraction *)

(** C6 (code slip).  In [_DESCRIPTION_RE] the [\s*] after [description:]
    also matches the newline, so a [description:] key with an empty value
    takes the text of the next frontmatter line as its description, in both
    variants of [extract_description]; the value of the key itself is the
    empty string. *)
Theorem empty_description_takes_next_line :
  extract_frontmatter fm_empty_description = Some (lines ["description:"; "name: x"]) /\
  extract_description (Some fm_empty_description) = "name: x" /\
  extract_description_imp (Some fm_empty_description) = "name: x" /\
  extract_description (Some md_hello) = "hello" /\
  extract_description None = EmptyString /\
  extract_description_imp None = EmptyString.
Proof. vm_compute. repeat split; reflexivity. Qed.

(* ------------------------------------------------------------------ *)
(** ** The scanners *)

Lemma map_filter_In {A B : Type} (g : A -> option B) l y :
  In y (map_filter g l) <-> exists x, In x l /\ g x = Some y.
Proof.
  induction l as [|x l IH]; simpl.
  - split; [contradiction|]. intros [x [[] _]].
  - destruct (g x) as [z|] eqn:E; simpl; rewrite IH; split.
    + intros [<-|[x' [Hin Hg]]]; [exists x; auto|exists x'; auto].
    + intros [x' [[<-|Hin] Hg]]; [left; congruence|right; exists x'; auto].
    + intros [x' [Hin Hg]]; exists x'; auto.
    + intros [x' [[<-|Hin] Hg]]; [congruence|exists x'; auto].
Qed.

Lemma insert_path_perm f x l : Permutation (insert_path f x l) (x :: l).
Proof.
  induction l as [|y l IH]; simpl; [reflexivity|].
  destruct (path_le f x y); [reflexivity|].
  transitivity (y :: x :: l); [constructor; exact IH|constructor].
Qed.

Lemma sort_paths_perm f l : Permutation (sort_paths f l) l.
Proof.
  induction l as [|x l IH]; simpl; [reflexivity|].
  rewrite insert_path_perm. constructor. exact IH.
Qed.

Lemma sort_paths_In f l x : In x (sort_paths f l) <-> In x l.
Proof.
  split; apply Permutation_in; [|symmetry]; apply sort_paths_perm.
Qed.

Lemma lex_compare_antisym a b : lex_compare a b = CompOpp (lex_compare b a).
Proof.
  revert b; induction a as [|x a IH]; intros [|y b]; simpl; try reflexivity.
  rewrite (String.compare_antisym x y).
  destruct (String.compare y x); simpl; auto.
Qed.

Lemma path_le_total f a b : path_le f a b = false -> path_le f b a = true.
Proof.
  unfold path_le. rewrite (lex_compare_antisym (sort_key f b)).
  destruct (lex_compare (sort_key f a) (sort_key f b)); simpl; congruence.
Qed.

Lemma insert_path_HdRel f x y l :
  HdRel (fun a b => path_le f a b = true) y l -> path_le f y x = true ->
  HdRel (fun a b => path_le f a b = true) y (insert_path f x l).
Proof.
  destruct l as [|z l]; simpl; intros Hd Hyx; [constructor; exact Hyx|].
  destruct (path_le f x z); constructor; [exact Hyx|]. inversion Hd; assumption.
Qed.

Lemma insert_path_sorted f x l :
  Sorted (fun a b => path_le f a b = true) l ->
  Sorted (fun a b => path_le f a b = true) (insert_path f x l).
Proof.
  induction l as [|y l IH]; simpl; intros Hs; [repeat constructor|].
  destruct (path_le f x y) eqn:E.
  - constructor; [exact Hs|constructor; exact E].
  - inversion Hs; subst. constructor; [apply IH; assumption|].
    apply insert_path_HdRel; [assumption|apply path_le_total; exact E].
Qed.

Lemma sort_paths_sorted f l : Sorted (fun a b => path_le f a b = true) (sort_paths f l).
Proof.
  induction l as [|x l IH]; simpl; [constructor|]. apply insert_path_sorted; exact IH.
Qed.

Lemma lookup_app n a b :
  lookup n (a ++ b) = match lookup n a with Some m => lookup m b | None => None end.
Proof.
  revert n; induction a as [|x a IH]; intros n; simpl; [reflexivity|].
  destruct n as [c|ch]; [reflexivity|].
  destruct (child_lookup x ch); [apply IH|reflexivity].
Qed.

Lemma child_lookup_In x ch c : child_lookup x ch = Some c -> In (x, c) ch.
Proof.
  induction ch as [|[nm c'] ch IH]; simpl; [discriminate|].
  destruct (String.eqb nm x) eqn:E.
  - apply String.eqb_eq in E. intros H; inversion H; subst. left; reflexivity.
  - intros H; right; apply IH; exact H.
Qed.

Lemma walk_DirN_In pre ch y :
  In y (walk pre (DirN ch)) <->
  exists nm c, In (nm, c) ch /\ (y = pre ++ [nm] \/ In y (walk (pre ++ [nm]) c)).
Proof.
  induction ch as [|[nm c] ch IH].
  - simpl. split; [contradiction|]. intros [nm [c [[] _]]].
  - change (walk pre (DirN ((nm, c) :: ch)))
      with ((pre ++ [nm]) :: walk (pre ++ [nm]) c ++ walk pre (DirN ch)).
    simpl. rewrite in_app_iff, IH. split.
    + intros [<-|[Hw|[nm' [c' [Hin Hy]]]]].
      * exists nm, c; auto.
      * exists nm, c; auto.
      * exists nm', c'; auto.
    + intros [nm' [c' [[Heq|Hin] Hy]]].
      * inversion Heq; subst. destruct Hy as [<-|Hw]; auto.
      * right; right. exists nm', c'; auto.
Qed.

Lemma walk_sound n : forall pre y, In y (walk pre n) -> exists q, q <> [] /\ y = pre ++ q.
Proof.
  induction n as [c|ch IHch] using node_ind'; intros pre y Hy; [destruct Hy|].
  apply walk_DirN_In in Hy. destruct Hy as [nm [c [Hin [->|Hw]]]].
  - exists [nm]; split; [discriminate|reflexivity].
  - rewrite Forall_forall in IHch. destruct (IHch (nm, c) Hin (pre ++ [nm]) y Hw) as [q [_ ->]].
    exists (nm :: q); split; [discriminate|]. rewrite <- app_assoc; reflexivity.
Qed.

Lemma walk_complete q : forall n pre m, q <> [] -> lookup n q = Some m -> In (pre ++ q) (walk pre n).
Proof.
  induction q as [|x q IH]; intros n pre m Hq Hl; [congruence|].
  destruct n as [c|ch]; simpl in Hl; [discriminate|].
  destruct (child_lookup x ch) as [c|] eqn:E; [|discriminate].
  apply walk_DirN_In. exists x, c. split; [apply child_lookup_In; exact E|].
  destruct q as [|z q].
  - left; reflexivity.
  - right. replace (pre ++ x :: z :: q) with ((pre ++ [x]) ++ z :: q)
      by (rewrite <- app_assoc; reflexivity).
    eapply IH; [discriminate|exact Hl].
Qed.

(** The deep scan lists exactly the files strictly below the directory. *)
Lemma deep_scan_items f fs d p :
  In p (scan_directory_files f fs d true) <->
  exists q c, q <> [] /\ p = mkPath (anchored d) (parts d ++ q) /\ lookup fs (parts p) = Some (FileN c).
Proof.
  unfold scan_directory_files. rewrite sort_paths_In, filter_In. unfold rglob, is_file.
  split.
  - intros [Hin Hf]. destruct (lookup fs (parts d)) as [n|] eqn:Ed; [|destruct Hin].
    apply in_map_iff in Hin. destruct Hin as [y [<- Hy]].
    destruct (walk_sound n (parts d) y Hy) as [q [Hq ->]].
    simpl in Hf |- *.
    destruct (lookup fs (parts d ++ q)) as [[c|ch]|] eqn:El; try discriminate.
    exists q, c; auto.
  - intros [q [c [Hq [-> Hl]]]]. simpl in Hl. rewrite lookup_app in Hl.
    destruct (lookup fs (parts d)) as [n|] eqn:Ed; [|discriminate].
    split; [|simpl; rewrite lookup_app, Ed, Hl; reflexivity].
    apply in_map_iff. exists (parts d ++ q). split; [reflexivity|].
    eapply walk_complete; eassumption.
Qed.

(** The shallow scan lists exactly the immediate subdirectories. *)
Lemma shallow_scan_items f fs d p :
  In p (scan_directory_files f fs d false) <->
  exists nm ch, p = mkPath (anchored d) (parts d ++ [nm]) /\ lookup fs (parts p) = Some (DirN ch).
Proof.
  unfold scan_directory_files. rewrite sort_paths_In, filter_In. unfold iterdir, is_dir.
  split.
  - intros [Hin Hd]. destruct (lookup fs (parts d)) as [[c|chs]|] eqn:Ed; try destruct Hin.
    apply in_map_iff in Hin. destruct Hin as [[nm c] [<- _]]. simpl in Hd |- *.
    destruct (lookup fs (parts d ++ [nm])) as [[c'|ch]|] eqn:El; try discriminate.
    exists nm, ch; auto.
  - intros [nm [ch [-> Hl]]]. simpl in Hl. rewrite lookup_app in Hl.
    destruct (lookup fs (parts d)) as [[c|chs]|] eqn:Ed; simpl in Hl; try discriminate.
    destruct (child_lookup nm chs) as [c|] eqn:Ec; [|discriminate].
    simpl in Hl. inversion Hl; subst.
    split; [|simpl; rewrite lookup_app, Ed; simpl; rewrite Ec; reflexivity].
    apply in_map_iff. eexists (nm, _). split; [reflexivity|]. apply child_lookup_In; exact Ec.
Qed.

Lemma scan_items_exist f fs d r p :
  In p (scan_directory_files f fs d r) -> lookup fs (parts p) <> None.
Proof.
  destruct r; [rewrite deep_scan_items|rewrite shallow_scan_items].
  - intros [q [c [_ [_ ->]]]]; discriminate.
  - intros [nm [ch [_ ->]]]; discriminate.
Qed.

Lemma create_file_entry_some f fs item root dt e :
  create_file_entry f fs item root dt = Some e ->
  normalize_path f item root = Some (path e) /\ path e <> EmptyString /\ type e = dt /\
  description e = (if is_dir fs item then EmptyString else extract_description (read_file fs item)).
Proof.
  unfold create_file_entry. destruct (normalize_path f item root) as [np|]; [|discriminate].
  destruct (String.eqb np EmptyString) eqn:E; [discriminate|].
  intros H; inversion H; subst; simpl. split; [reflexivity|]. split; [|auto].
  intros Heq; rewrite Heq in E; discriminate.
Qed.

Lemma process_directory_entry f fs d root e :
  In e (snd (process_directory f fs d root)) ->
  exists item, In item (scan_directory_files f fs d (should_scan_recursively (path_name d))) /\
               create_file_entry f fs item root (path_name d) = Some e.
Proof. unfold process_directory; simpl. rewrite map_filter_In. auto. Qed.

Lemma merge_file_lists_In scans e :
  In e (merge_file_lists scans) <-> exists s, In s scans /\ In e (snd s).
Proof.
  unfold merge_file_lists.
  assert (G : forall acc, fold_left (fun acc scan => acc ++ snd scan) scans acc
                          = acc ++ concat (map snd scans)).
  { induction scans as [|s scans IH]; intros acc; simpl; [rewrite app_nil_r; reflexivity|].
    rewrite IH, app_assoc; reflexivity. }
  rewrite G; simpl. rewrite in_concat. split.
  - intros [l [Hl He]]. apply in_map_iff in Hl. destruct Hl as [s [<- Hs]]. exists s; auto.
  - intros [s [Hs He]]. exists (snd s); split; [apply in_map; exact Hs|exact He].
Qed.

Lemma scan_dirs_In f fs root dirs s :
  In s (scan_dirs f fs root dirs) ->
  exists dn, s = process_directory f fs (join root (parse f dn)) root.
Proof.
  induction dirs as [|dn dirs IH]; intros Hs; [destruct Hs|].
  cbn [scan_dirs] in Hs.
  destruct (negb (is_dir fs (join root (parse f dn)))); [exact (IH Hs)|].
  destruct (process_directory f fs (join root (parse f dn)) root) as [dt entries] eqn:E.
  destruct entries as [|e0 es]; [exact (IH Hs)|].
  destruct Hs as [<-|Hs]; [exists dn; symmetry; exact E|exact (IH Hs)].
Qed.

(** Every entry of the generated manifest comes from a scanned item that
    exists, and its path is that item's normalised path. *)
Lemma manifest_entry_origin f fs root dirs e :
  In e (merge_file_lists (scan_dirs f fs root dirs)) ->
  exists item, lookup fs (parts item) <> None /\ normalize_path f item root = Some (path e) /\
               path e <> EmptyString.
Proof.
  rewrite merge_file_lists_In. intros [s [Hs He]].
  destruct (scan_dirs_In f fs root dirs s Hs) as [dn ->].
  apply process_directory_entry in He. destruct He as [item [Hi Hc]].
  apply create_file_entry_some in Hc. destruct Hc as [Hn [Hne _]].
  exists item. split; [eapply scan_items_exist; exact Hi|auto].
Qed.

Lemma list_directory_entry_origin f fs d root e :
  In e (list_directory f fs d root) ->
  exists item, lookup fs (parts item) <> None /\ normalize_path f item root = Some (path e).
Proof.
  unfold list_directory. rewrite map_filter_In. intros [item [Hi Hc]].
  apply filter_In in Hi. destruct Hi as [_ Hf].
  exists item. split.
  - unfold is_file in Hf. destruct (lookup fs (parts item)); [discriminate|discriminate].
  - unfold normalize_path. destruct (relative_to item root); inversion Hc; reflexivity.
Qed.

Lemma replace_char_no_slash s : ~ In slash (chars (replace_char slash backslash s)).
Proof.
  induction s as [|c s IH]; simpl; [auto|]. intros [H|H]; [|exact (IH H)].
  destruct (Ascii.eqb c slash) eqn:E; [discriminate|].
  subst c. rewrite Ascii.eqb_refl in E. discriminate.
Qed.

(** C5.  The traversal mode is chosen by the directory's name: the
    shallow mode for exactly ["skills"] and ["plugins"], which lists the
    immediate subdirectories and gives their entries an empty description;
    the deep mode for every other name, which lists every file strictly
    below the directory.  Both lists are sorted, and none of the categories
    [STACK_DIRS] of the imperative generator (which always scans deeply) is
    a shallow one. *)
Theorem scan_mode_by_category_name (f : flavour) (fs : node) (d root : PurePath) :
  (should_scan_recursively (path_name d) = false <->
   path_name d = "skills" \/ path_name d = "plugins") /\
  Sorted (fun a b => path_le f a b = true)
    (scan_directory_files f fs d (should_scan_recursively (path_name d))) /\
  (if should_scan_recursively (path_name d)
   then forall p, In p (scan_directory_files f fs d true) <->
          exists q c, q <> [] /\ p = mkPath (anchored d) (parts d ++ q) /\
                      lookup fs (parts p) = Some (FileN c)
   else (forall p, In p (scan_directory_files f fs d false) <->
           exists nm ch, p = mkPath (anchored d) (parts d ++ [nm]) /\
                         lookup fs (parts p) = Some (DirN ch)) /\
        (forall e, In e (snd (process_directory f fs d root)) -> description e = EmptyString)) /\
  Forall (fun n => should_scan_recursively n = true) STACK_DIRS.
Proof.
  split.
  { unfold should_scan_recursively.
    destruct (String.eqb (path_name d) "skills") eqn:E1;
      [apply String.eqb_eq in E1; split; auto|].
    destruct (String.eqb (path_name d) "plugins") eqn:E2;
      [apply String.eqb_eq in E2; split; auto|].
    apply String.eqb_neq in E1, E2. simpl. split; [discriminate|]. intros [H|H]; contradiction. }
  split; [unfold scan_directory_files; destruct (should_scan_recursively _);
          apply sort_paths_sorted|].
  split; [|repeat constructor].
  destruct (should_scan_recursively (path_name d)) eqn:R.
  - intros p; apply deep_scan_items.
  - split; [intros p; apply shallow_scan_items|].
    intros e He. apply process_directory_entry in He. destruct He as [item [Hi Hc]].
    apply create_file_entry_some in Hc. destruct Hc as [_ [_ [_ ->]]].
    rewrite R in Hi. unfold scan_directory_files in Hi.
    rewrite sort_paths_In, filter_In in Hi. destruct Hi as [_ ->]. reflexivity.
Qed.

(** C8.  Every path written by either generator is the item's path
    relative to the repository root, rendered by the host's [str], with each
    forward slash replaced by a backslash; so it contains no forward
    slash. *)
Theorem manifest_paths_use_backslash (f : flavour) (fs : node) (root d : PurePath)
    (dirs : list string) (e : FileEntry) :
  In e (merge_file_lists (scan_dirs f fs root dirs)) \/ In e (list_directory f fs d root) ->
  exists item rel, lookup fs (parts item) <> None /\ relative_to item root = Some rel /\
    path e = replace_char slash backslash (str_path f rel) /\ ~ In slash (chars (path e)).
Proof.
  intros H.
  assert (G : exists item, lookup fs (parts item) <> None /\
                           normalize_path f item root = Some (path e)).
  { destruct H as [H|H].
    - destruct (manifest_entry_origin _ _ _ _ _ H) as [item [Hl [Hn _]]]. eauto.
    - exact (list_directory_entry_origin _ _ _ _ _ H). }
  destruct G as [item [Hl Hn]]. unfold normalize_path in Hn.
  destruct (relative_to item root) as [rel|] eqn:Er; [|discriminate].
  injection Hn as Hp. exists item, rel. rewrite <- Hp.
  repeat split; auto using replace_char_no_slash.
Qed.

Lemma manifest_paths_use_backslash_witness :
  In entry_a (merge_file_lists (scan_dirs Posix fs_agents repo STACK_DIRS)) /\
  exists item rel, lookup fs_agents (parts item) <> None /\ relative_to item repo = Some rel /\
    path entry_a = replace_char slash backslash (str_path Posix rel) /\
    ~ In slash (chars (path entry_a)).
Proof.
  assert (H : In entry_a (merge_file_lists (scan_dirs Posix fs_agents repo STACK_DIRS)))
    by (vm_compute; left; reflexivity).
  split; [exact H|].
  apply (manifest_paths_use_backslash Posix fs_agents repo repo STACK_DIRS entry_a).
  left; exact H.
Defined.

(* ------------------------------------------------------------------ *)
(** ** From the manifest back to the files *)

Lemma string_forallb_impl (p q : ascii -> bool) s :
  (forall c, p c = true -> q c = true) -> string_forallb p s = true -> string_forallb q s = true.
Proof.
  intros Hpq. induction s as [|c s IH]; simpl; [auto|].
  intros H. apply andb_prop in H. destruct H as [H1 H2]. rewrite (Hpq c H1), (IH H2). reflexivity.
Qed.

Lemma string_forallb_append p a b :
  string_forallb p (String.append a b) = string_forallb p a && string_forallb p b.
Proof. induction a as [|c a IH]; simpl; [reflexivity|]. rewrite IH, andb_assoc. reflexivity. Qed.

Lemma string_forallb_concat p sp xs :
  string_forallb p sp = true -> Forall (fun x => string_forallb p x = true) xs ->
  string_forallb p (String.concat sp xs) = true.
Proof.
  intros Hsp. induction xs as [|x xs IH]; intros Hx; [reflexivity|].
  inversion Hx; subst. destruct xs as [|y xs]; [assumption|].
  change (String.concat sp (x :: y :: xs)) with (String.append x (String.append sp (String.concat sp (y :: xs)))).
  rewrite !string_forallb_append, Hsp, IH by assumption. rewrite H1. reflexivity.
Qed.

Lemma replace_char_id a b s :
  string_forallb (fun c => negb (Ascii.eqb c a)) s = true -> replace_char a b s = s.
Proof.
  induction s as [|c s IH]; simpl; [reflexivity|]. intros H. apply andb_prop in H.
  destruct H as [H1 H2]. destruct (Ascii.eqb c a); [discriminate|]. rewrite IH by exact H2. reflexivity.
Qed.

Lemma split_on_nosep (p : ascii -> bool) x :
  string_forallb (fun c => negb (p c)) x = true -> split_on p x = [x].
Proof.
  induction x as [|c x IH]; simpl; [reflexivity|]. intros H. apply andb_prop in H.
  destruct H as [H1 H2]. destruct (p c); [discriminate|]. rewrite IH by exact H2. reflexivity.
Qed.

Lemma split_on_app_sep (p : ascii -> bool) x c s :
  string_forallb (fun c => negb (p c)) x = true -> p c = true ->
  split_on p (String.append x (String c s)) = x :: split_on p s.
Proof.
  intros Hx Hc. induction x as [|a x IH]; simpl; [rewrite Hc; reflexivity|].
  simpl in Hx. apply andb_prop in Hx. destruct Hx as [H1 H2].
  destruct (p a); [discriminate|]. rewrite IH by exact H2. reflexivity.
Qed.

Lemma sep_char f : exists c, sep f = String c EmptyString /\ is_sep f c = true.
Proof. destruct f; eexists; split; reflexivity. Qed.

Lemma split_on_concat f ns :
  ns <> [] -> Forall (fun x => string_forallb (fun c => negb (is_sep f c)) x = true) ns ->
  split_on (is_sep f) (String.concat (sep f) ns) = ns.
Proof.
  induction ns as [|x ns IH]; intros Hne Hall; [congruence|].
  inversion Hall; subst. destruct ns as [|y ns].
  - apply split_on_nosep; assumption.
  - destruct (sep_char f) as [c [Hs Hc]].
    change (String.concat (sep f) (x :: y :: ns))
      with (String.append x (String.append (sep f) (String.concat (sep f) (y :: ns)))).
    rewrite Hs. cbn [String.append]. rewrite split_on_app_sep by assumption.
    rewrite <- Hs, IH by (discriminate || assumption). reflexivity.
Qed.

Lemma filter_valid_id f xs :
  Forall (fun x => valid_name f x = true) xs ->
  filter (fun x => negb (String.eqb x EmptyString) && negb (String.eqb x ".")) xs = xs.
Proof.
  induction xs as [|x xs IH]; intros H; [reflexivity|]. inversion H; subst. simpl.
  unfold valid_name in H2. apply andb_prop in H2. destruct H2 as [H2 _].
  rewrite H2, IH by assumption. reflexivity.
Qed.

Lemma valid_windows_no_slash x :
  valid_name Windows x = true -> string_forallb (fun c => negb (Ascii.eqb c slash)) x = true.
Proof.
  unfold valid_name. intros H. apply andb_prop in H. destruct H as [_ H].
  revert H. apply string_forallb_impl. intros c. simpl.
  destruct (Ascii.eqb c backslash), (Ascii.eqb c slash); simpl; auto.
Qed.

(** On Windows, the stored string of a relative path of valid names parses
    back to that path. *)
Lemma parse_normalized_windows rel :
  anchored rel = false -> Forall (fun x => valid_name Windows x = true) (parts rel) ->
  parse Windows (replace_char slash backslash (str_path Windows rel)) = rel.
Proof.
  destruct rel as [a [|x xs]]; intros Ha Hall; simpl in Ha, Hall; subst a; [reflexivity|].
  replace (str_path Windows {| anchored := false; parts := x :: xs |})
    with (String.concat (sep Windows) (x :: xs)) by reflexivity.
  rewrite replace_char_id.
  2:{ apply string_forallb_concat; [reflexivity|].
      eapply Forall_impl; [|exact Hall]. exact valid_windows_no_slash. }
  unfold parse. f_equal.
  - inversion Hall; subst. unfold valid_name in H1.
    destruct x as [|c x']; [discriminate|].
    assert (Hc : is_sep Windows c = false).
    { apply andb_prop in H1. destruct H1 as [_ H1]. cbn [string_forallb] in H1.
      destruct (is_sep Windows c); [discriminate|reflexivity]. }
    destruct xs as [|y xs]; cbn [String.concat String.append]; exact Hc.
  - rewrite split_on_concat; [|discriminate|].
    + exact (filter_valid_id Windows _ Hall).
    + eapply Forall_impl; [|exact Hall]. intros y Hy. unfold valid_name in Hy.
      apply andb_prop in Hy. destruct Hy as [_ Hy]. exact Hy.
Qed.

Lemma strip_prefix_app pre l r : strip_prefix pre l = Some r -> l = pre ++ r.
Proof.
  revert l; induction pre as [|x pre IH]; intros [|y l]; simpl; try congruence.
  destruct (String.eqb x y) eqn:E; [|discriminate].
  apply String.eqb_eq in E; subst. intros H. rewrite (IH l H). reflexivity.
Qed.

Lemma relative_to_some item root rel :
  relative_to item root = Some rel ->
  anchored rel = false /\ anchored item = anchored root /\ parts item = parts root ++ parts rel.
Proof.
  unfold relative_to. destruct (Bool.eqb (anchored item) (anchored root)) eqn:E; [|discriminate].
  apply Bool.eqb_prop in E.
  destruct (strip_prefix (parts root) (parts item)) as [l|] eqn:Es; simpl; [|discriminate].
  intros H; inversion H; subst; simpl. split; [reflexivity|]. split; [exact E|].
  apply strip_prefix_app; exact Es.
Qed.

Lemma child_lookup_names_ok f ch x c :
  tree_names_ok f (DirN ch) = true -> child_lookup x ch = Some c ->
  valid_name f x = true /\ tree_names_ok f c = true.
Proof.
  induction ch as [|[nm c0] ch IH]; [discriminate|].
  change (tree_names_ok f (DirN ((nm, c0) :: ch)))
    with (valid_name f nm && tree_names_ok f c0 && tree_names_ok f (DirN ch)).
  intros H. apply andb_prop in H. destruct H as [H Hr]. apply andb_prop in H. destruct H as [Hn Hc].
  simpl. destruct (String.eqb nm x) eqn:E.
  - apply String.eqb_eq in E; subst. intros Heq; inversion Heq; subst. auto.
  - apply IH; exact Hr.
Qed.

Lemma lookup_names_ok f ps : forall n m,
  tree_names_ok f n = true -> lookup n ps = Some m -> Forall (fun x => valid_name f x = true) ps.
Proof.
  induction ps as [|x ps IH]; intros n m Hn Hl; [constructor|].
  destruct n as [c|ch]; simpl in Hl; [discriminate|].
  destruct (child_lookup x ch) as [c|] eqn:E; [|discriminate].
  destruct (child_lookup_names_ok f ch x c Hn E) as [Hx Hc].
  constructor; [exact Hx|]. eapply IH; eassumption.
Qed.

Lemma extract_paths_entry e :
  extract_paths (entry_to_json e) = if String.eqb (path e) EmptyString then [] else [path e].
Proof. destruct e as [t p d]; simpl. destruct (String.eqb p EmptyString); reflexivity. Qed.

Lemma extract_paths_files_to_dict es p :
  In p (extract_paths (files_to_dict es)) -> exists e, In e es /\ path e = p.
Proof.
  unfold files_to_dict.
  replace (extract_paths (JObj [("files", JArr (map entry_to_json es))]))
    with (extract_paths (JArr (map entry_to_json es))) by reflexivity.
  rewrite extract_paths_arr, map_map, in_concat. intros [l [Hl Hp]].
  apply in_map_iff in Hl. destruct Hl as [e [<- He]].
  rewrite extract_paths_entry in Hp. destruct (String.eqb (path e) EmptyString); [destruct Hp|].
  destruct Hp as [<-|[]]. exists e; auto.
Qed.

Lemma generate_stack_entry f fs root dirs m p :
  generate_stack f fs root dirs = Some m -> In p (extract_paths m) ->
  exists item, lookup fs (parts item) <> None /\ normalize_path f item root = Some p /\
               p <> EmptyString.
Proof.
  unfold generate_stack. destruct (negb (is_dir fs root)); [discriminate|].
  destruct (merge_file_lists (scan_dirs f fs root dirs)) as [|e0 es] eqn:E; [discriminate|].
  intros H; inversion H; subst m. intros Hp.
  apply extract_paths_files_to_dict in Hp. destruct Hp as [e [He <-]].
  rewrite <- E in He. apply manifest_entry_origin in He. exact He.
Qed.

Lemma no_slash_forallb s :
  ~ In slash (chars s) -> string_forallb (fun c => negb (is_sep Posix c)) s = true.
Proof.
  induction s as [|c s IH]; simpl; [reflexivity|]. intros H.
  destruct (Ascii.eqb c slash) eqn:E.
  - apply Ascii.eqb_eq in E. subst. exfalso. apply H. left; reflexivity.
  - simpl. apply IH. intros Hs; apply H; right; exact Hs.
Qed.

(** C9 (counterexample).  A repository [/repo] whose category directory
    [agents] holds one file [a.md] with [description: "hello"].  On a POSIX
    host the manifest stores [agents\a.md]; the copier turns it into the
    one-component path [/repo/agents\a.md], which is not the file
    [/repo/agents/a.md], and records the item as skipped. *)
Lemma manifest_path_misses_file_on_posix :
  generate_stack Posix fs_agents repo STACK_DIRS = Some (files_to_dict [entry_a]) /\
  description entry_a = "hello" /\
  extract_paths (files_to_dict [entry_a]) = [agents_a_md] /\
  lookup fs_agents ["repo"; "agents"; "a.md"] = Some (FileN (Some md_hello)) /\
  join repo (parse Posix agents_a_md) = mkPath true ["repo"; agents_a_md] /\
  lookup fs_agents (parts (join repo (parse Posix agents_a_md))) = None /\
  snd (copy_files_batch Posix (list PurePath) simple_exists simple_mkdir simple_copy2
         [mkPath true ["repo"; "agents"; "a.md"]] repo out_dir [agents_a_md])
  = inl [mkResult (mkPath true ["repo"; agents_a_md]) None SKIPPED (Some "File not found")].
Proof. vm_compute. repeat split; reflexivity. Qed.

(** C9 (amended).  On a Windows host, where the backslash separates
    components, every path of the generated manifest resolves against the
    repository root, as the copiers do it, back to the scanned item it was
    generated from (for a tree whose names are non-empty, not ["."], and
    free of separators).  On a POSIX host the copier reads the stored path
    as at most one component under the root. *)
Theorem manifest_paths_resolve_by_host (fs : node) (root : PurePath) (dirs : list string)
    (m : json) (p : string) :
  (tree_names_ok Windows fs = true -> generate_stack Windows fs root dirs = Some m ->
   In p (extract_paths m) ->
   exists item, lookup fs (parts item) <> None /\ normalize_path Windows item root = Some p /\
                join root (parse Windows p) = item) /\
  (generate_stack Posix fs root dirs = Some m -> In p (extract_paths m) ->
   exists item, lookup fs (parts item) <> None /\ normalize_path Posix item root = Some p /\
                parse Posix p = mkPath false (if String.eqb p "." then [] else [p])).
Proof.
  split.
  - intros Hok Hg Hp.
    destruct (generate_stack_entry _ _ _ _ _ _ Hg Hp) as [item [Hl [Hn _]]].
    exists item. split; [exact Hl|]. split; [exact Hn|].
    unfold normalize_path in Hn.
    destruct (relative_to item root) as [rel|] eqn:Er; [|discriminate].
    injection Hn as <-.
    destruct (relative_to_some _ _ _ Er) as [Ha [Hai Hpi]].
    destruct (lookup fs (parts item)) as [n|] eqn:El; [|congruence].
    pose proof (lookup_names_ok _ _ _ _ Hok El) as Hv.
    rewrite Hpi in Hv. apply Forall_app in Hv. destruct Hv as [_ Hv].
    rewrite parse_normalized_windows by assumption.
    unfold join. rewrite Ha. destruct item as [ai pi]; simpl in *. subst. reflexivity.
  - intros Hg Hp.
    destruct (generate_stack_entry _ _ _ _ _ _ Hg Hp) as [item [Hl [Hn Hne]]].
    exists item. split; [exact Hl|]. split; [exact Hn|].
    unfold normalize_path in Hn.
    destruct (relative_to item root) as [rel|]; [|discriminate].
    injection Hn as Hs.
    pose proof (replace_char_no_slash (str_path Posix rel)) as Hns. rewrite Hs in Hns.
    unfold parse. rewrite split_on_nosep by (apply no_slash_forallb; exact Hns).
    destruct p as [|c s]; [congruence|].
    assert (Hc : Ascii.eqb c slash = false).
    { destruct (Ascii.eqb c slash) eqn:E; [|reflexivity].
      apply Ascii.eqb_eq in E; subst. exfalso. apply Hns. left; reflexivity. }
    change (match String c s with String c0 _ => is_sep Posix c0 | EmptyString => false end)
      with (is_sep Posix c).
    unfold is_sep. rewrite Hc.
    change (filter ?g [String c s]) with (if g (String c s) then [String c s] else []).
    cbv beta.
    replace (String.eqb (String c s) EmptyString) with false by reflexivity.
    destruct (String.eqb (String c s) "."); reflexivity.
Qed.

Lemma manifest_paths_resolve_by_host_witness :
  tree_names_ok Windows fs_agents = true /\
  generate_stack Windows fs_agents repo STACK_DIRS = Some (files_to_dict [entry_a]) /\
  In agents_a_md (extract_paths (files_to_dict [entry_a])) /\
  exists item, lookup fs_agents (parts item) <> None /\
               normalize_path Windows item repo = Some agents_a_md /\
               join repo (parse Windows agents_a_md) = item.
Proof.
  assert (H1 : tree_names_ok Windows fs_agents = true) by (vm_compute; reflexivity).
  assert (H2 : generate_stack Windows fs_agents repo STACK_DIRS = Some (files_to_dict [entry_a]))
    by (vm_compute; reflexivity).
  assert (H3 : In agents_a_md (extract_paths (files_to_dict [entry_a])))
    by (vm_compute; left; reflexivity).
  split; [exact H1|]. split; [exact H2|]. split; [exact H3|].
  exact (proj1 (manifest_paths_resolve_by_host fs_agents repo STACK_DIRS
                  (files_to_dict [entry_a]) agents_a_md) H1 H2 H3).
Defined.

(* ------------------------------------------------------------------ *)
(** ** More of the generators and copiers *)

Lemma string_compare_OT a b : String.compare a b = String_as_OT.compare a b.
Proof. reflexivity. Qed.

Lemma string_compare_lt_trans a b c :
  String.compare a b = Lt -> String.compare b c = Lt -> String.compare a c = Lt.
Proof.
  rewrite !string_compare_OT. intros H1 H2.
  exact (StrictOrder_Transitive (R := String_as_OT.lt) a b c H1 H2).
Qed.

Lemma string_compare_refl s : String.compare s s = Eq.
Proof.
  induction s as [|c s IH]; simpl; [reflexivity|].
  pose proof (Ascii.compare_antisym c c) as H.
  destruct (Ascii.compare c c); simpl in H; try discriminate. exact IH.
Qed.

Lemma lex_compare_eq a b : lex_compare a b = Eq -> a = b.
Proof.
  revert b; induction a as [|x a IH]; intros [|y b]; simpl; try discriminate; auto.
  destruct (String.compare x y) eqn:E; try discriminate.
  apply String.compare_eq_iff in E. subst. intros H. rewrite (IH b H). reflexivity.
Qed.

Lemma lex_compare_lt_trans a b c :
  lex_compare a b = Lt -> lex_compare b c = Lt -> lex_compare a c = Lt.
Proof.
  revert b c; induction a as [|x a IH]; intros [|y b] [|z c]; simpl; try discriminate; auto.
  destruct (String.compare x y) eqn:Exy; try discriminate;
  destruct (String.compare y z) eqn:Eyz; try discriminate; intros H1 H2.
  - apply String.compare_eq_iff in Exy. apply String.compare_eq_iff in Eyz. subst.
    rewrite string_compare_refl. exact (IH _ _ H1 H2).
  - apply String.compare_eq_iff in Exy. subst. rewrite Eyz. reflexivity.
  - apply String.compare_eq_iff in Eyz. subst. rewrite Exy. reflexivity.
  - rewrite (string_compare_lt_trans _ _ _ Exy Eyz). reflexivity.
Qed.

Lemma path_le_trans f a b c : path_le f a b = true -> path_le f b c = true -> path_le f a c = true.
Proof.
  unfold path_le.
  destruct (lex_compare (sort_key f a) (sort_key f b)) eqn:E1; try discriminate;
  destruct (lex_compare (sort_key f b) (sort_key f c)) eqn:E2; try discriminate; intros _ _.
  - apply lex_compare_eq in E1. rewrite E1, E2. reflexivity.
  - apply lex_compare_eq in E1. rewrite E1, E2. reflexivity.
  - apply lex_compare_eq in E2. rewrite <- E2, E1. reflexivity.
  - rewrite (lex_compare_lt_trans _ _ _ E1 E2). reflexivity.
Qed.

Lemma insert_path_head f x l :
  (forall z, In z l -> path_le f x z = true) -> insert_path f x l = x :: l.
Proof.
  destruct l as [|y l]; simpl; [reflexivity|]. intros H. rewrite (H y (or_introl eq_refl)).
  reflexivity.
Qed.

Lemma filter_insert_path f (p : PurePath -> bool) x l :
  StronglySorted (fun a b => path_le f a b = true) l ->
  filter p (insert_path f x l) = if p x then insert_path f x (filter p l) else filter p l.
Proof.
  induction l as [|y l IH]; intros Hs; simpl; [destruct (p x); reflexivity|].
  inversion Hs as [|? ? Hs' Hall]; subst. rewrite Forall_forall in Hall.
  change (insert_path f x (y :: l))
    with (if path_le f x y then x :: y :: l else y :: insert_path f x l).
  destruct (path_le f x y) eqn:Exy.
  - change (filter p (x :: y :: l)) with (if p x then x :: filter p (y :: l) else filter p (y :: l)).
    destruct (p x); [|reflexivity].
    symmetry. apply insert_path_head. intros z Hz.
    apply filter_In in Hz. destruct Hz as [Hz _]. destruct Hz as [<-|Hz]; [exact Exy|].
    exact (path_le_trans f x y z Exy (Hall z Hz)).
  - change (filter p (y :: insert_path f x l))
      with (if p y then y :: filter p (insert_path f x l) else filter p (insert_path f x l)).
    change (filter p (y :: l)) with (if p y then y :: filter p l else filter p l).
    rewrite IH by exact Hs'.
    destruct (p y); destruct (p x); try reflexivity. simpl. rewrite Exy. reflexivity.
Qed.

(** [sorted] commutes with a filter: sorting then filtering gives the
    filtered list sorted. *)
Lemma sort_paths_filter f (p : PurePath -> bool) l :
  sort_paths f (filter p l) = filter p (sort_paths f l).
Proof.
  induction l as [|x l IH]; simpl; [reflexivity|].
  rewrite filter_insert_path.
  - destruct (p x); simpl; rewrite IH; reflexivity.
  - apply Sorted_StronglySorted; [intros a b c; apply path_le_trans|apply sort_paths_sorted].
Qed.

Lemma map_filter_ext_in {A B : Type} (g h : A -> option B) l :
  (forall x, In x l -> g x = h x) -> map_filter g l = map_filter h l.
Proof.
  induction l as [|x l IH]; intros H; simpl; [reflexivity|].
  rewrite (H x (or_introl eq_refl)), IH by (intros y Hy; apply H; right; exact Hy).
  reflexivity.
Qed.

(** [extract_description] of the two generators agree on every input,
    also on an empty file and an empty frontmatter. *)
Theorem extract_description_variants_agree (content : option string) :
  extract_description content = extract_description_imp content.
Proof.
  destruct content as [[|a s]|]; [vm_compute; reflexivity| |reflexivity].
  unfold extract_description, extract_description_imp, extract_frontmatter.
  destruct (re_match _FRONTMATTER_RE (String a s)) as [m|]; simpl; [|reflexivity].
  destruct (group (String a s) m) as [|b t]; [vm_compute; reflexivity|reflexivity].
Qed.

Lemma replace_char_empty a b s : replace_char a b s = EmptyString -> s = EmptyString.
Proof. destruct s; simpl; [reflexivity|discriminate]. Qed.

Lemma str_path_nonempty f rel :
  Forall (fun x => x <> EmptyString) (parts rel) -> str_path f rel <> EmptyString.
Proof.
  destruct rel as [a [|x xs]]; unfold str_path; simpl; intros H.
  - destruct a, f; discriminate.
  - inversion H; subst. destruct a; [destruct f; destruct xs; discriminate|].
    destruct x as [|c x']; [congruence|]. destruct xs; discriminate.
Qed.

Lemma valid_name_nonempty f x : valid_name f x = true -> x <> EmptyString.
Proof. destruct x; [discriminate|]. intros _; discriminate. Qed.

(** In a deep scan the two generators give the same entries. *)
Lemma process_directory_deep_imp f fs d root :
  tree_names_ok f fs = true -> should_scan_recursively (path_name d) = true ->
  snd (process_directory f fs d root) = list_directory f fs d root.
Proof.
  intros Hok Hr. unfold process_directory, list_directory. simpl. rewrite Hr.
  unfold scan_directory_files. rewrite sort_paths_filter.
  apply map_filter_ext_in. intros item Hi. apply filter_In in Hi. destruct Hi as [_ Hf].
  unfold is_file in Hf.
  destruct (lookup fs (parts item)) as [[c|ch]|] eqn:El; try discriminate.
  unfold create_file_entry, normalize_path.
  destruct (relative_to item root) as [rel|] eqn:Er; [|reflexivity].
  destruct (relative_to_some _ _ _ Er) as [_ [_ Hp]].
  pose proof (lookup_names_ok _ _ _ _ Hok El) as Hv. rewrite Hp in Hv.
  apply Forall_app in Hv. destruct Hv as [_ Hv].
  destruct (String.eqb (replace_char slash backslash (str_path f rel)) EmptyString) eqn:E.
  - apply String.eqb_eq, replace_char_empty in E. exfalso. revert E.
    apply str_path_nonempty. eapply Forall_impl; [|exact Hv]. apply valid_name_nonempty.
  - unfold is_dir. rewrite El, extract_description_variants_agree. reflexivity.
Qed.

Lemma merge_file_lists_cons s ss : merge_file_lists (s :: ss) = snd s ++ merge_file_lists ss.
Proof.
  unfold merge_file_lists.
  assert (G : forall (l : list (string * list FileEntry)) (acc : list FileEntry),
                fold_left (fun acc scan => acc ++ snd scan) l acc
                            = acc ++ concat (map snd l)).
  { induction l as [|x l IH]; intros acc; simpl; [rewrite app_nil_r; reflexivity|].
    rewrite IH, app_assoc; reflexivity. }
  rewrite !G. reflexivity.
Qed.

Lemma scan_dirs_list_dirs f fs root dirs :
  tree_names_ok f fs = true ->
  Forall (fun dn => should_scan_recursively (path_name (join root (parse f dn))) = true) dirs ->
  merge_file_lists (scan_dirs f fs root dirs) = list_dirs f fs root dirs.
Proof.
  intros Hok. induction dirs as [|dn dirs IH]; intros Hall; [reflexivity|].
  inversion Hall; subst. cbn [scan_dirs list_dirs].
  destruct (negb (is_dir fs (join root (parse f dn)))); [exact (IH H2)|].
  pose proof (process_directory_deep_imp f fs (join root (parse f dn)) root Hok H1) as Hp.
  destruct (process_directory f fs (join root (parse f dn)) root) as [dt entries].
  simpl in Hp. rewrite <- Hp.
  destruct entries as [|e es]; [exact (IH H2)|].
  rewrite merge_file_lists_cons, IH by exact H2. reflexivity.
Qed.

(** The generator of [curadoria] and the one of [my/curadoria], run on
    its default directories, write the same manifest (for a tree whose
    names are non-empty, not ["."], and free of separators). *)
Theorem generators_agree_on_default_dirs (f : flavour) (fs : node) (root : PurePath) :
  tree_names_ok f fs = true ->
  generate_stack_imp f fs root = generate_stack f fs root STACK_DIRS.
Proof.
  intros Hok. unfold generate_stack_imp, generate_stack.
  destruct (negb (is_dir fs root)); [reflexivity|].
  rewrite scan_dirs_list_dirs by
    (exact Hok || (unfold STACK_DIRS; repeat constructor; destruct f; unfold path_name, join;
                   simpl; rewrite last_last; reflexivity)).
  destruct (list_dirs f fs root STACK_DIRS); reflexivity.
Qed.

Lemma generators_agree_on_default_dirs_witness :
  tree_names_ok Posix fs_agents = true /\
  generate_stack_imp Posix fs_agents repo = generate_stack Posix fs_agents repo STACK_DIRS.
Proof.
  assert (H : tree_names_ok Posix fs_agents = true) by (vm_compute; reflexivity).
  split; [exact H|]. exact (generators_agree_on_default_dirs Posix fs_agents repo H).
Defined.

Lemma nodup_length_bound (l : list string) : length (nodup string_dec l) <= length l.
Proof.
  apply NoDup_incl_length; [apply NoDup_nodup|]. intros x Hx. apply nodup_In in Hx. exact Hx.
Qed.

(** [calculate_stats]: the counts are consistent, the files without a
    description are never negative, and there are at most as many
    directory types as files, at least one when there are files. *)
Theorem calculate_stats_bounds (files : list FileEntry) :
  let s := calculate_stats files in
  files_with_descriptions s <= total_files s /\
  (0 <= files_without_descriptions s)%Z /\
  directories_scanned s <= total_files s /\
  (directories_scanned s = 0 <-> files = []).
Proof.
  cbv zeta.
  assert (Hw : files_with_descriptions (calculate_stats files) <= total_files (calculate_stats files))
    by (simpl; apply filter_length_le).
  split; [exact Hw|]. split; [unfold files_without_descriptions; lia|].
  split; [simpl; rewrite <- (length_map type files); apply nodup_length_bound|].
  simpl. split; [|intros ->; reflexivity].
  destruct files as [|e es]; [reflexivity|]. intros H.
  assert (Hin : In (type e) (nodup string_dec (map type (e :: es))))
    by (apply nodup_In; left; reflexivity).
  destruct (nodup string_dec (map type (e :: es))); [destruct Hin|discriminate].
Qed.

(** In the statistics of a generated manifest, every entry's type is the
    name of a scanned directory that contributed entries, so
    [directories_scanned] is at most the number of those directories (two
    directories with the same name count once). *)
Theorem directories_scanned_bound (f : flavour) (fs : node) (root : PurePath) (dirs : list string) :
  let scans := scan_dirs f fs root dirs in
  (forall e, In e (merge_file_lists scans) -> In (type e) (map fst scans)) /\
  directories_scanned (calculate_stats (merge_file_lists scans)) <= length scans.
Proof.
  cbv zeta.
  assert (H : forall e, In e (merge_file_lists (scan_dirs f fs root dirs)) ->
                        In (type e) (map fst (scan_dirs f fs root dirs))).
  { intros e He. apply merge_file_lists_In in He. destruct He as [s [Hs He]].
    pose proof Hs as Hs'. apply scan_dirs_In in Hs'. destruct Hs' as [dn ->].
    apply process_directory_entry in He. destruct He as [item [_ Hc]].
    apply create_file_entry_some in Hc. destruct Hc as [_ [_ [Ht _]]].
    rewrite Ht. apply in_map_iff. eexists; split; [|exact Hs]. reflexivity. }
  split; [exact H|]. simpl. rewrite <- (length_map fst (scan_dirs f fs root dirs)).
  apply NoDup_incl_length; [apply NoDup_nodup|].
  intros x Hx. apply nodup_In, in_map_iff in Hx. destruct Hx as [e [<- He]]. apply H; exact He.
Qed.

Lemma _extract_paths_entry e : _extract_paths (entry_to_json e) = [path e].
Proof. destruct e as [t p d]; reflexivity. Qed.

(** The copiers read back from a generated manifest exactly the stored
    paths, in order, with either extractor. *)
Theorem manifest_paths_read_back (f : flavour) (fs : node) (root : PurePath) (dirs : list string)
    (m : json) :
  generate_stack f fs root dirs = Some m ->
  extract_paths m = map path (merge_file_lists (scan_dirs f fs root dirs)) /\
  _extract_paths m = map path (merge_file_lists (scan_dirs f fs root dirs)).
Proof.
  unfold generate_stack. destruct (negb (is_dir fs root)); [discriminate|].
  assert (Hne : Forall (fun e => path e <> EmptyString) (merge_file_lists (scan_dirs f fs root dirs))).
  { apply Forall_forall. intros e He. apply manifest_entry_origin in He.
    destruct He as [_ [_ [_ H]]]. exact H. }
  destruct (merge_file_lists (scan_dirs f fs root dirs)) as [|e0 es] eqn:E; [discriminate|].
  intros H; inversion H; subst m. unfold files_to_dict. split.
  - replace (extract_paths (JObj [("files", JArr (map entry_to_json (e0 :: es)))]))
      with (extract_paths (JArr (map entry_to_json (e0 :: es)))) by reflexivity.
    rewrite extract_paths_arr, map_map. clear E H. induction Hne as [|e l He Hl IH]; [reflexivity|].
    cbn [map List.concat]. rewrite extract_paths_entry, IH.
    destruct (String.eqb (path e) EmptyString) eqn:Ee; [apply String.eqb_eq in Ee; contradiction|].
    reflexivity.
  - replace (_extract_paths (JObj [("files", JArr (map entry_to_json (e0 :: es)))]))
      with (_extract_paths (JArr (map entry_to_json (e0 :: es)))) by reflexivity.
    rewrite _extract_paths_arr, map_map. clear. induction (e0 :: es) as [|e l IH]; [reflexivity|].
    cbn [map List.concat]. rewrite _extract_paths_entry, IH. reflexivity.
Qed.

Lemma manifest_paths_read_back_witness :
  generate_stack Posix fs_agents repo STACK_DIRS = Some (files_to_dict [entry_a]) /\
  extract_paths (files_to_dict [entry_a]) =
    map path (merge_file_lists (scan_dirs Posix fs_agents repo STACK_DIRS)) /\
  _extract_paths (files_to_dict [entry_a]) =
    map path (merge_file_lists (scan_dirs Posix fs_agents repo STACK_DIRS)).
Proof.
  assert (H : generate_stack Posix fs_agents repo STACK_DIRS = Some (files_to_dict [entry_a]))
    by (vm_compute; reflexivity).
  split; [exact H|]. exact (manifest_paths_read_back Posix fs_agents repo STACK_DIRS _ H).
Defined.

Lemma Forall2_In_r {A B : Type} (P : A -> B -> Prop) l1 l2 y :
  Forall2 P l1 l2 -> In y l2 -> exists x, In x l1 /\ P x y.
Proof.
  induction 1 as [|x y' l1 l2 Hxy _ IH]; [intros []|].
  intros [<-|Hy]; [exists x; split; [left|]; auto|].
  destruct (IH Hy) as [x' [Hx' HP]]; exists x'; split; [right|]; auto.
Qed.

Lemma aggregate_copied_In rs d :
  In d (copied (aggregate_results rs)) <->
  exists r, In r rs /\ status r = COPIED /\ destination r = Some d.
Proof.
  unfold aggregate_results; simpl. rewrite in_flat_map. split.
  - intros [r [Hr Hd]]. exists r. destruct (status r); simpl in Hd; try contradiction.
    destruct (destination r) as [d'|]; [|contradiction]. destruct Hd as [<-|[]]. auto.
  - intros [r [Hr [Hs Hd]]]. exists r. rewrite Hs, Hd. simpl. auto.
Qed.



Lemma strip_prefix_self pre r : strip_prefix pre (pre ++ r) = Some r.
Proof. induction pre as [|x pre IH]; simpl; [reflexivity|]. rewrite String.eqb_refl. exact IH. Qed.



Lemma path_eqb_refl p : path_eqb p p = true.
Proof.
  destruct p as [a l]. unfold path_eqb; cbn [anchored parts].
  rewrite Bool.eqb_reflx. induction l as [|x l IH]; simpl; [reflexivity|].
  rewrite String.eqb_refl. exact IH.
Qed.

Lemma is_sep_slash f : is_sep f slash = true.
Proof. destruct f; reflexivity. Qed.

(** Without a (non-empty) [--dest], the destination comes from [DEST_DIR].
    When that is unset it is [agents/<source>], relative to the repository
    root.  When it is set to the empty string, [Path("")] is the current
    directory, the destination resolves to the repository root itself, and
    each destination is its own source: [shutil.copy2] raises
    [SameFileError] there, so a batch that completes copies no file. *)
Theorem copier_destination_default (f : flavour) (script_dir : PurePath)
    (resolve : PurePath -> PurePath) (env : list (string * string)) (args : CopierArgs) :
  truthy_str (cargs_dest args) = None ->
  let cfg := copier_from_args f script_dir resolve env args in
  (getenv env "DEST_DIR" = None -> valid_name f (cargs_source args) = true ->
     ccfg_dest_dir cfg = mkPath false ["agents"; cargs_source args]) /\
  (getenv env "DEST_DIR" = Some EmptyString ->
     (forall rr, resolve_destination (ccfg_dest_dir cfg) rr = rr) /\
     (forall host St ex mk cp st rr ps st' results,
        (forall s q, snd (cp s q q) <> None) ->
        copy_files_batch host St ex mk cp st rr (ccfg_dest_dir cfg) ps = (st', inl results) ->
        Forall (fun r => status r <> COPIED) results /\
        copied (aggregate_results results) = [])).
Proof.
  intros Hd. cbv zeta. unfold copier_from_args. cbn [ccfg_dest_dir]. rewrite Hd.
  assert (Hr : forall rr, resolve_destination (parse f EmptyString) rr = rr).
  { intros [a l]. unfold resolve_destination, join. simpl. rewrite app_nil_r. reflexivity. }
  split.
  - intros He Hv. rewrite He.
    change (String.append "agents/" (cargs_source args))
      with (String.append "agents" (String slash (cargs_source args))).
    unfold parse. f_equal; [destruct f; reflexivity|].
    rewrite split_on_app_sep by (apply is_sep_slash || (destruct f; reflexivity)).
    unfold valid_name in Hv. apply andb_prop in Hv. destruct Hv as [Hv Hs].
    rewrite split_on_nosep by exact Hs. cbn [filter]. rewrite Hv. reflexivity.
  - intros He. rewrite He. split; [exact Hr|].
    intros host St ex mk cp st rr ps st' results Hcp Hb.
    unfold copy_files_batch in Hb. rewrite Hr in Hb.
    assert (HF : Forall (fun r => status r <> COPIED) results).
    { revert st st' results Hb; induction ps as [|p ps IH]; intros st st' results Hb.
      - injection Hb as _ <-. constructor.
      - rewrite copy_batch_loop_step in Hb. unfold copy_single_file at 1 in Hb.
        destruct (ex st (join rr (parse host p))) as [[|]|e]; [| |discriminate Hb].
        + destruct (mk st (parent (join rr (parse host p)))) as [st1 [e1|]].
          * destruct (copy_batch_loop host St ex mk cp st1 rr rr ps) as [st2 [rs|e]] eqn:E;
              [|discriminate Hb].
            injection Hb as _ <-. constructor; [discriminate|exact (IH _ _ _ E)].
          * specialize (Hcp st1 (join rr (parse host p))).
            destruct (cp st1 (join rr (parse host p)) (join rr (parse host p))) as [st2 [e2|]];
              [|exfalso; exact (Hcp eq_refl)].
            destruct (copy_batch_loop host St ex mk cp st2 rr rr ps) as [st3 [rs|e]] eqn:E;
              [|discriminate Hb].
            injection Hb as _ <-. constructor; [discriminate|exact (IH _ _ _ E)].
        + destruct (copy_batch_loop host St ex mk cp st rr rr ps) as [st2 [rs|e]] eqn:E;
            [|discriminate Hb].
          injection Hb as _ <-. constructor; [discriminate|exact (IH _ _ _ E)]. }
    split; [exact HF|].
    unfold aggregate_results; cbn [copied]. clear Hb.
    induction HF as [|r rs Hs _ IHF]; [reflexivity|].
    cbn [flat_map]. rewrite IHF. destruct (status r); [contradiction Hs; reflexivity|reflexivity|reflexivity].
Qed.

Lemma copier_destination_default_witness :
  truthy_str (cargs_dest (mkCopierArgs "github" (Some EmptyString) None None)) = None /\
  getenv [("DEST_DIR", EmptyString)] "DEST_DIR" = Some EmptyString /\
  resolve_destination
    (ccfg_dest_dir (copier_from_args Posix repo (fun p => p) [("DEST_DIR", EmptyString)]
                      (mkCopierArgs "github" (Some EmptyString) None None))) repo = repo /\
  (forall s q, snd (simple_copy2 s q q) <> None) /\
  copy_files_batch Posix (list PurePath) simple_exists simple_mkdir simple_copy2 fs_one repo
    (ccfg_dest_dir (copier_from_args Posix repo (fun p => p) [("DEST_DIR", EmptyString)]
                      (mkCopierArgs "github" (Some EmptyString) None None))) ["a.md"]
  = (fs_one, inl [mkResult (mkPath true ["repo"; "a.md"]) None FAILED (Some "are the same file")]) /\
  copied (aggregate_results
            [mkResult (mkPath true ["repo"; "a.md"]) None FAILED (Some "are the same file")]) = [].
Proof.
  assert (Hcp : forall s q, snd (simple_copy2 s q q) <> None).
  { intros s q. unfold simple_copy2. rewrite path_eqb_refl. discriminate. }
  assert (Hb : copy_files_batch Posix (list PurePath) simple_exists simple_mkdir simple_copy2 fs_one repo
    (ccfg_dest_dir (copier_from_args Posix repo (fun p => p) [("DEST_DIR", EmptyString)]
                      (mkCopierArgs "github" (Some EmptyString) None None))) ["a.md"]
    = (fs_one, inl [mkResult (mkPath true ["repo"; "a.md"]) None FAILED (Some "are the same file")]))
    by (vm_compute; reflexivity).
  split; [reflexivity|]. split; [reflexivity|].
  pose proof (proj2 (copier_destination_default Posix repo (fun p => p) [("DEST_DIR", EmptyString)]
                       (mkCopierArgs "github" (Some EmptyString) None None) eq_refl) eq_refl) as [H1 H2].
  split; [exact (H1 repo)|]. split; [exact Hcp|]. split; [exact Hb|].
  exact (proj2 (H2 Posix (list PurePath) simple_exists simple_mkdir simple_copy2 fs_one repo ["a.md"]
                  fs_one _ Hcp Hb)).
Defined.

Lemma join_parse_empty f root : join root (parse f EmptyString) = root.
Proof. destruct root as [a l]. unfold join. simpl. rewrite app_nil_r. reflexivity. Qed.

(** Without [--dirs] (absent or empty), the directories come from
    [STACK_DIRS] split on commas: unset, they are the six default ones;
    set to the empty string, the list is [[""]], and the one directory
    scanned is the repository root itself, its name taken as the category
    of every file under it. *)
Theorem stack_dirs_from_env (f : flavour) (script_dir : PurePath)
    (resolve : PurePath -> PurePath) (env : list (string * string)) (args : StackArgs) :
  (args_dirs args = None \/ args_dirs args = Some []) ->
  let cfg := stack_from_args f script_dir resolve env args in
  (getenv env "STACK_DIRS" = None ->
     cfg_stack_dirs cfg = ["agents"; "instructions"; "prompts"; "skills"; "plugins"; "hooks"]) /\
  (getenv env "STACK_DIRS" = Some EmptyString ->
     cfg_stack_dirs cfg = [EmptyString] /\
     forall fs root,
       scan_dirs f fs root (cfg_stack_dirs cfg) =
       if is_dir fs root
       then let '(t, es) := process_directory f fs root root in
            match es with [] => [] | _ :: _ => [(t, es)] end
       else []).
Proof.
  intros Ha. cbv zeta. unfold stack_from_args. cbn [cfg_stack_dirs].
  assert (Hd : match args_dirs args with
               | Some (d :: ds) => d :: ds
               | _ => split_commas (match getenv env "STACK_DIRS" with
                                    | Some s => s | None => default_stack_dirs end)
               end = split_commas (match getenv env "STACK_DIRS" with
                                   | Some s => s | None => default_stack_dirs end))
    by (destruct Ha as [-> | ->]; reflexivity).
  rewrite Hd. split.
  - intros He. rewrite He. reflexivity.
  - intros He. rewrite He. split; [reflexivity|].
    intros fs root. change (split_commas EmptyString) with [EmptyString].
    cbn [scan_dirs]. rewrite join_parse_empty.
    destruct (is_dir fs root); [|reflexivity]. cbn [negb].
    destruct (process_directory f fs root root) as [t [|e es]]; reflexivity.
Qed.

Lemma stack_dirs_from_env_witness :
  (args_dirs (mkStackArgs (Some []) None None None) = None \/
   args_dirs (mkStackArgs (Some []) None None None) = Some []) /\
  cfg_stack_dirs (stack_from_args Posix repo (fun p => p) [("STACK_DIRS", EmptyString)]
                    (mkStackArgs (Some []) None None None)) = [EmptyString].
Proof.
  assert (H : args_dirs (mkStackArgs (Some []) None None None) = None \/
              args_dirs (mkStackArgs (Some []) None None None) = Some []) by (right; reflexivity).
  split; [exact H|].
  exact (proj1 (proj2 (stack_dirs_from_env Posix repo (fun p => p) [("STACK_DIRS", EmptyString)]
                         (mkStackArgs (Some []) None None None) H) eq_refl)).
Defined.


Lemma lstrip_suffix s : exists pre, list_ascii_of_string s = pre ++ list_ascii_of_string (lstrip s).
Proof.
  induction s as [|c s [pre IH]]; simpl; [exists []; reflexivity|].
  destruct (is_space c); [exists (c :: pre); rewrite IH; reflexivity|exists []; reflexivity].
Qed.

Lemma lstrip_head s c t : lstrip s = String c t -> is_space c = false.
Proof.
  induction s as [|a s IH]; simpl; [discriminate|].
  destruct (is_space a) eqn:E; [exact IH|]. intros H; inversion H; subst; exact E.
Qed.

Lemma lstrip_hd s c : hd_error (list_ascii_of_string (lstrip s)) = Some c -> is_space c = false.
Proof.
  destruct (lstrip s) as [|a t] eqn:E; simpl; [discriminate|].
  intros H; inversion H; subst. exact (lstrip_head s c t E).
Qed.

Lemma strip_ends s :
  (forall c, hd_error (list_ascii_of_string (strip s)) = Some c -> is_space c = false) /\
  (forall c, hd_error (rev (list_ascii_of_string (strip s))) = Some c -> is_space c = false).
Proof.
  unfold strip. split; [intros c; apply lstrip_hd|].
  intros c Hc. destruct (lstrip_suffix (rstrip s)) as [pre Hp].
  assert (Hy : hd_error (rev (list_ascii_of_string (rstrip s))) = Some c).
  { rewrite Hp, rev_app_distr.
    destruct (rev (list_ascii_of_string (lstrip (rstrip s)))) as [|a l]; [discriminate|exact Hc]. }
  unfold rstrip in Hy. rewrite list_ascii_of_string_of_list_ascii, rev_involutive in Hy.
  exact (lstrip_hd _ c Hy).
Qed.

(** A description extracted from a file never starts or ends with
    whitespace ([\s] / [str.strip]'s class): it is empty, or both its first
    and its last character are not whitespace. *)
Theorem extract_description_stripped (content : option string) :
  let d := extract_description content in
  (forall c, hd_error (list_ascii_of_string d) = Some c -> is_space c = false) /\
  (forall c, hd_error (rev (list_ascii_of_string d)) = Some c -> is_space c = false).
Proof.
  cbv zeta.
  assert (H0 : (forall c, hd_error (list_ascii_of_string EmptyString) = Some c -> is_space c = false) /\
               (forall c, hd_error (rev (list_ascii_of_string EmptyString)) = Some c -> is_space c = false))
    by (split; intros c H; discriminate).
  unfold extract_description, extract_description_from_frontmatter.
  destruct content as [[|a c]|]; try exact H0.
  destruct (extract_frontmatter (String a c)) as [[|b fm]|]; try exact H0.
  destruct (re_search _DESCRIPTION_RE (String b fm)); [apply strip_ends|exact H0].
Qed.
